(** * VoiceApp: phrase extraction and the listen / load cycles

    A shallow embedding of [VoiceApp.py].  The file has three parts:

    - strings and the phrase extraction of [extract_phrases], over a
      tokenizer [nlp] that is a parameter (spaCy's pipeline is a collaborator
      of the program, not part of it) and a model of spaCy's [PhraseMatcher]
      as the program builds it: [PhraseMatcher(nlp.vocab)], whose matching
      attribute is the default one, the verbatim token text;
    - the effectful functions ([process_text], [listen], [load_vosk_model],
      the thread starters) as programs over the calls they make, with
      Python's exceptions, [try]/[except]/[finally], the callbacks handed
      to [app.after] and the threads the program starts;
    - the properties.

    What is modelled of the libraries: the calls to the speech, Vosk and JSON
    libraries return a value or raise an exception derived from [Exception];
    the calls on the widgets and on the event loop succeed; spaCy refuses a
    text longer than [nlp.max_length], which [extract_phrases_outcome]
    accounts for, and [process_text] and [listen] are modelled for the
    transcripts it accepts. *)

From Stdlib Require Import List String Ascii Bool Arith Lia NArith ZArith QArith Sorted
  DecimalString.
Import ListNotations.
Close Scope Q_scope.
Open Scope string_scope.

(** ** Strings, as Python's [str] methods used by the program *)

Module Str.

(** [str.isspace] on one character, for the code points below 256. *)
Definition isspace (c : ascii) : bool :=
  let n := N_of_ascii c in
  (((9 <=? n) && (n <=? 13)) || ((28 <=? n) && (n <=? 32))
   || (n =? 133) || (n =? 160))%N.

(** Truth value of a string in a condition: non-empty. *)
Definition truthy (s : string) : bool :=
  match s with EmptyString => false | String _ _ => true end.

Fixpoint lstrip (s : string) : string :=
  match s with
  | EmptyString => EmptyString
  | String c s' => if isspace c then lstrip s' else s
  end.

Fixpoint rstrip (s : string) : string :=
  match s with
  | EmptyString => EmptyString
  | String c s' =>
      let r := rstrip s' in
      if isspace c && negb (truthy r) then EmptyString else String c r
  end.

(** [s.strip()] *)
Definition strip (s : string) : string := rstrip (lstrip s).

(** [s.split(sep)] for a one-character separator; [cur] is the piece being
    read.  Empty pieces are kept, as Python keeps them. *)
Fixpoint split_from (sep : ascii) (cur s : string) : list string :=
  match s with
  | EmptyString => [cur]
  | String c s' =>
      if Ascii.eqb c sep then cur :: split_from sep EmptyString s'
      else split_from sep (cur ++ String c EmptyString) s'
  end.

Definition split (sep : ascii) (s : string) : list string :=
  split_from sep EmptyString s.

(** [sep.join(l)] *)
Definition join (sep : string) (l : list string) : string :=
  String.concat sep l.

(** The string of one line feed. *)
Definition newline : string := String (ascii_of_N 10) EmptyString.

(** [str.lower] on one character and on a string (ASCII letters). *)
Definition lower_char (c : ascii) : ascii :=
  let n := N_of_ascii c in
  if ((65 <=? n) && (n <=? 90))%N then ascii_of_N (n + 32) else c.

Fixpoint lower (s : string) : string :=
  match s with
  | EmptyString => EmptyString
  | String c s' => String (lower_char c) (lower s')
  end.

(** [len(s)] *)
Definition len (s : string) : N := N.of_nat (String.length s).

(** [s * n] *)
Definition mul (s : string) (n : N) : string := N.iter n (String.append s) "".

(** [str(n)] *)
Definition of_N (n : N) : string := NilZero.string_of_uint (N.to_uint n).

End Str.

(** ** Documents, spans and the phrase matcher *)

(** A token: its verbatim text ([token.text], the ORTH attribute) and
    whether a single space follows it ([token.whitespace_]). *)
Record Token : Type := mkToken { text : string; whitespace_ : bool }.

Definition Doc : Type := list Token.

Definition text_with_ws (t : Token) : string :=
  text t ++ (if whitespace_ t then " " else "").

(** [doc.text]: the tokens with their trailing spaces. *)
Fixpoint doc_text (d : list Token) : string :=
  match d with
  | [] => ""
  | t :: d' => text_with_ws t ++ doc_text d'
  end.

(** [doc[start:end]] *)
Definition slice {A : Type} (start stop : nat) (l : list A) : list A :=
  firstn (stop - start) (skipn start l).

(** [span.text]: the span's tokens with their spaces, without the space
    after the last one. *)
Fixpoint span_text (sp : list Token) : string :=
  match sp with
  | [] => ""
  | [t] => text t
  | t :: sp' => text_with_ws t ++ span_text sp'
  end.

(** The keys a document contributes to the matcher: the ORTH of each token. *)
Definition orths (d : list Token) : list string := map text d.

Module PhraseMatcher.

(** The matcher stores its patterns in a trie keyed by the matching
    attribute.  A node is represented by what is stored below it: the
    remainders of the patterns that pass through it.  The root is the list of
    all patterns; a node is absent when nothing is stored below it. *)
Definition node : Type := list (list string).

Definition empty : node := [].

(** [matcher.add(key, None, *docs)]: documents without tokens are skipped. *)
Definition add (m : node) (docs : list Doc) : node :=
  (m ++ map orths (filter (fun d => negb (Nat.eqb (List.length d) 0)) docs))%list.

(** Child of a node along one key. *)
Definition map_get (n : node) (key : string) : node :=
  flat_map (fun p => match p with
                     | [] => []
                     | k :: r => if String.eqb k key then [r] else []
                     end) n.

(** A pattern ends at this node. *)
Definition terminal (n : node) : bool :=
  existsb (fun p => match p with [] => true | _ => false end) n.

Definition present (n : node) : bool :=
  match n with [] => false | _ => true end.

(** The inner loop of the matcher: [n] is the node reached after
    [doc[start:idy]], [rest] is [doc[idy:]]. *)
Fixpoint walk (n : node) (start idy : nat) (rest : list Token)
  : list (nat * nat) :=
  ((if terminal n then [(start, idy)] else []) ++
   match rest with
   | [] => []
   | t :: rest' =>
       let n' := map_get n (text t) in
       if present n' then walk n' start (S idy) rest' else []
   end)%list.

(** The outer loop: one walk from each token of the document. *)
Fixpoint find_matches (root : node) (idx : nat) (rest : list Token)
  : list (nat * nat) :=
  match rest with
  | [] => []
  | t :: rest' =>
      ((let n := map_get root (text t) in
        if present n then walk n idx (S idx) rest' else [])
       ++ find_matches root (S idx) rest')%list
  end.

(** [matcher(doc)]: the [(start, end)] of every match. *)
Definition call (m : node) (doc : Doc) : list (nat * nat) :=
  find_matches m 0 doc.

End PhraseMatcher.

Section Extract.

(** The tokenizer of the loaded pipeline: [nlp(text)] and
    [nlp.make_doc(text)] produce the same tokens. *)
Variable nlp : string -> Doc.

(** [extract_phrases(text, target_phrases)]: what the function returns when
    the pipeline accepts the text and the phrases.  The pipeline refuses a
    text longer than [nlp.max_length]; the function with that refusal is
    [extract_phrases_outcome] below. *)
Definition extract_phrases (txt : string) (target_phrases : list string)
  : list string :=
  let doc := nlp txt in
  let matcher := PhraseMatcher.empty in
  let patterns :=
    map (fun phrase => nlp (Str.strip phrase))
        (filter (fun phrase => Str.truthy (Str.strip phrase)) target_phrases) in
  let matcher :=
    match patterns with
    | [] => matcher
    | _ => PhraseMatcher.add matcher patterns
    end in
  let matches := PhraseMatcher.call matcher doc in
  map (fun m => span_text (slice (fst m) (snd m) doc)) matches.

End Extract.

(** ** Exceptions, objects and calls *)

(** The exceptions the program distinguishes.  All are subclasses of
    [Exception]; the string is the exception's message, [str(e)].  An
    exception that is not one ([KeyboardInterrupt], [SystemExit]) is caught
    by no clause of the program and is not modelled. *)
Inductive exn : Type :=
| RequestError (msg : string)        (* sr.RequestError *)
| UnknownValueError                  (* sr.UnknownValueError *)
| Exception (msg : string).          (* any other exception *)

Definition exn_str (e : exn) : string :=
  match e with
  | RequestError msg => msg
  | UnknownValueError => ""
  | Exception msg => msg
  end.

(** Outcome of a call: a value, or an exception raised. *)
Inductive result (A : Type) : Type :=
| Ok (a : A)
| Raised (e : exn).
Arguments Ok {A} a.
Arguments Raised {A} e.

(** ** The length limit of the pipeline

    [nlp(text)] starts with [nlp.make_doc(text)], and [make_doc] starts with
    [if len(text) > self.max_length: raise ValueError(Errors.E088.format(
    length=len(text), max_length=self.max_length))]. *)

(** [nlp.max_length], which [spacy.load] leaves at its default. *)
Definition max_length : N := 1000000.

(** The [ValueError] raised for a text of [n] characters. *)
Definition E088 (n : N) : exn :=
  Exception
    ("[E088] Text of length " ++ Str.of_N n ++ " exceeds maximum of "
     ++ Str.of_N max_length
     ++ ". The parser and NER models require roughly 1GB of temporary memory per 100,000 characters in the input. This means long texts may cause memory allocation errors. If you're not using the parser or NER, it's probably safe to increase the `nlp.max_length` limit. The limit is in number of characters, so you can check whether your inputs are too long by checking `len(text)`.").

(** [nlp.make_doc(text)], and the document of [nlp(text)]. *)
Definition make_doc (nlp : string -> Doc) (txt : string) : result Doc :=
  if (max_length <? Str.len txt)%N then Raised (E088 (Str.len txt))
  else Ok (nlp txt).

(** [[nlp.make_doc(phrase.strip()) for phrase in target_phrases
      if phrase.strip()]]: the phrases are taken in order, and the first
    refusal ends the comprehension. *)
Fixpoint make_patterns (nlp : string -> Doc) (target_phrases : list string)
  : result (list Doc) :=
  match target_phrases with
  | [] => Ok []
  | phrase :: rest =>
      if Str.truthy (Str.strip phrase) then
        match make_doc nlp (Str.strip phrase) with
        | Raised e => Raised e
        | Ok d =>
            match make_patterns nlp rest with
            | Raised e => Raised e
            | Ok ds => Ok (d :: ds)
            end
        end
      else make_patterns nlp rest
  end.

(** [extract_phrases(text, target_phrases)] with the refusals: the value
    returned, or the exception raised. *)
Definition extract_phrases_outcome
    (nlp : string -> Doc) (txt : string) (target_phrases : list string)
  : result (list string) :=
  match make_doc nlp txt with
  | Raised e => Raised e
  | Ok doc =>
      let matcher := PhraseMatcher.empty in
      match make_patterns nlp target_phrases with
      | Raised e => Raised e
      | Ok patterns =>
          let matcher :=
            match patterns with
            | [] => matcher
            | _ => PhraseMatcher.add matcher patterns
            end in
          let matches := PhraseMatcher.call matcher doc in
          Ok (map (fun m => span_text (slice (fst m) (snd m) doc)) matches)
      end
  end.

(** [sr.AudioData] *)
Record AudioData : Type := mkAudio {
  frame_data : list Byte.byte;
  sample_rate : Z;
  sample_width : Z
}.

(** Handles of the objects the Vosk library creates. *)
Record VoskModel : Type := mkVoskModel { model_handle : nat }.
Record KaldiRecognizer : Type := mkKaldi { recognizer_handle : nat }.

(** The dictionary [json.loads] returns, as its entries (one per key). *)
Definition json_dict : Type := list (string * string).

(** [d.get(key, default)] *)
Fixpoint dict_get (d : json_dict) (key default : string) : string :=
  match d with
  | [] => default
  | (k, v) :: d' => if String.eqb k key then v else dict_get d' key default
  end.

(** The cell of a local variable that a lambda closes over.  The program has
    one such variable whose binding ends before the function does: the target
    [e] of [except Exception as e], which Python unbinds when the clause is
    left. *)
Definition cell : Type := nat.

(** The functions handed to [app.after] and to the button: they run on the
    event loop. *)
Inductive callback : Type :=
| start_progress
| stop_progress
| persistent_configure (txt : string)
    (* lambda: persistent_status_label.configure(text=txt) *)
| persistent_configure_error (e : cell)
    (* lambda: persistent_status_label.configure(
                 text=f"Error loading offline model: {e}") *)
| ephemeral_configure (txt fg_color : string)
    (* lambda: ephemeral_status_label.configure(text=txt, fg_color=fg_color) *)
| ephemeral_configure_error (e : cell)
    (* lambda: ephemeral_status_label.configure(text=f"Error: {e}",
                                                fg_color="red") *)
| transcript_insert (s : string)
    (* lambda: transcript_text.insert("end", s) *)
| key_phrase_insert (s : string)
    (* lambda: key_phrase_text.insert("end", s) *)
| load_model_in_thread
| start_listening_thread.

(** What the program calls, with the type of what each call returns.  The
    calls of the first two groups go to the libraries and the devices and
    may raise; those of the last group read and write the program's own
    state. *)
Inductive call : Type -> Type :=
(* speech_recognition *)
| Microphone_enter : call unit
| Microphone_exit : call unit
| adjust_for_ambient_noise (duration : Q) : call unit
| Recognizer_listen (pause_threshold : Q) (phrase_time_limit : Z)
    : call AudioData
| get_raw_data (audio : AudioData) (convert_rate convert_width : Z)
    : call (list Byte.byte)
| recognize_google (audio : AudioData) : call string
(* vosk, json *)
| VoskModel_new (path : string) : call VoskModel
| KaldiRecognizer_new (model : option VoskModel) (rate : Z)
    : call KaldiRecognizer
| AcceptWaveform (r : KaldiRecognizer) (data : list Byte.byte) : call bool
| Result (r : KaldiRecognizer) : call string
| FinalResult (r : KaldiRecognizer) : call string
| json_loads (s : string) : call json_dict
(* globals, widgets, the event loop, closure cells *)
| VoskModel_imported : call bool             (* VoskModel is not None *)
| get_vosk_model : call (option VoskModel)
| set_vosk_model (m : VoskModel) : call unit
| get_is_vosk_loaded : call bool
| set_is_vosk_loaded (b : bool) : call unit
| toggle_var_get : call bool
| phrase_entry_get : call string
| app_after (cb : callback) : call unit
| bind_except (e : exn) : call cell
| unbind_except (c : cell) : call unit.

(** ** Programs *)

(** A program is the tree of its calls: each node is a call and what the
    program does with its outcome. *)
Inductive prog (A : Type) : Type :=
| Ret (a : A)
| Do {X : Type} (c : call X) (k : result X -> prog A).
Arguments Ret {A} a.
Arguments Do {A X} c k.

Fixpoint pbind {A B : Type} (p : prog A) (f : A -> prog B) : prog B :=
  match p with
  | Ret a => f a
  | Do c k => Do c (fun r => pbind (k r) f)
  end.

(** Programs that may raise. *)
Definition M (A : Type) : Type := prog (result A).

Definition ret {A : Type} (a : A) : M A := Ret (Ok a).

Definition bind {A B : Type} (m : M A) (f : A -> M B) : M B :=
  pbind m (fun r => match r with Ok a => f a | Raised e => Ret (Raised e) end).

Definition perform {X : Type} (c : call X) : M X := Do c Ret.

(** [try: m  except ...: h e] *)
Definition try_except {A : Type} (m : M A) (h : exn -> M A) : M A :=
  pbind m (fun r => match r with Ok a => ret a | Raised e => h e end).

(** [try: m  finally: fin].  An exception of [fin] replaces the outcome. *)
Definition try_finally {A : Type} (m : M A) (fin : M unit) : M A :=
  pbind m (fun r =>
  pbind fin (fun r' =>
    Ret (match r' with Ok _ => r | Raised e' => Raised e' end))).

Declare Scope prog_scope.
Delimit Scope prog_scope with prog.
Notation "x <- m ;; k" := (bind m (fun x => k))
  (at level 61, m at next level, right associativity) : prog_scope.
Notation "m ;; k" := (bind m (fun _ => k))
  (at level 61, right associativity) : prog_scope.
Open Scope prog_scope.

(** [app.after(0, cb)] *)
Definition after (cb : callback) : M unit := perform (app_after cb).

(** [except Exception as e: body]: [e] is bound for the clause and unbound
    when the clause is left, on every path. *)
Definition except_as {A : Type} (e : exn) (body : cell -> M A) : M A :=
  c <- perform (bind_except e) ;;
  try_finally (body c) (perform (unbind_except c)).

(** [with sr.Microphone() as source: body] *)
Definition with_Microphone {A : Type} (body : M A) : M A :=
  perform Microphone_enter ;;
  try_finally body (perform Microphone_exit).

Definition is_None {A : Type} (o : option A) : bool :=
  match o with None => true | Some _ => false end.

Definition model_path : string :=
  "C:\Users\PC\Desktop\Python\Voice\vosk-model-en-us-0.42-gigaspeech".

(** [load_vosk_model()] *)
Definition load_vosk_model : M unit :=
  imported <- perform VoskModel_imported ;;
  if imported then
    try_except
      (after (persistent_configure "Loading offline voice recognition model...") ;;
       after start_progress ;;
       m <- perform (VoskModel_new model_path) ;;
       perform (set_vosk_model m) ;;
       perform (set_is_vosk_loaded true) ;;
       after stop_progress ;;
       after (persistent_configure "Offline loaded | Online available"))
      (fun exc => except_as exc (fun e =>
         after stop_progress ;;
         after (persistent_configure_error e)))
  else
    after (persistent_configure "Vosk not installed.").

Section Program.

Variable nlp : string -> Doc.

(** The phrase list [process_text] builds from the entry's content. *)
Definition target_phrases_of (user_input : string) : list string :=
  if Str.truthy (Str.strip user_input)
  then map Str.strip (Str.split "," user_input)
  else ["safety reset"].

(** [process_text(text)], for a text and phrases that the pipeline
    accepts. *)
Definition process_text (txt : string) : M unit :=
  user_input <- perform phrase_entry_get ;;
  let target_phrases := target_phrases_of user_input in
  let phrases := extract_phrases nlp txt target_phrases in
  match phrases with
  | _ :: _ =>
      after (key_phrase_insert
               ("Key Phrases: " ++ Str.join ", " phrases ++ Str.newline))
  | [] =>
      after (key_phrase_insert ("No key phrases detected." ++ Str.newline))
  end.

(** The offline branch of [listen], after the model check: the text of the
    decoder's terminal result. *)
Definition recognize_vosk (audio : AudioData) : M string :=
  raw_audio <- perform (get_raw_data audio 16000 2) ;;
  model <- perform get_vosk_model ;;
  vosk_recognizer <- perform (KaldiRecognizer_new model 16000) ;;
  accepted <- perform (AcceptWaveform vosk_recognizer raw_audio) ;;
  if accepted then
    result_json <- perform (Result vosk_recognizer) ;;
    result_dict <- perform (json_loads result_json) ;;
    ret (dict_get result_dict "text" "")
  else
    final_json <- perform (FinalResult vosk_recognizer) ;;
    final_dict <- perform (json_loads final_json) ;;
    ret (dict_get final_dict "text" "").

(** [not is_vosk_loaded or vosk_model is None] *)
Definition model_not_loaded : M bool :=
  loaded <- perform get_is_vosk_loaded ;;
  if negb loaded then ret true
  else model <- perform get_vosk_model ;; ret (is_None model).

(** The [with] block of [listen]: the recognizer is created with
    [pause_threshold = 1.5]. *)
Definition capture : M AudioData :=
  with_Microphone
    (perform (adjust_for_ambient_noise (1 # 2)) ;;
     after (ephemeral_configure "Listening..." "blue") ;;
     perform (Recognizer_listen (3 # 2) 15)).

(** The body of the [try] of [listen].  The [return] of the offline branch
    leaves the function: the recognition yields [None] and nothing follows. *)
Definition listen_body : M unit :=
  after start_progress ;;
  audio <- capture ;;
  offline <- perform toggle_var_get ;;
  recognized <-
    (if offline then
       not_loaded <- model_not_loaded ;;
       if not_loaded then
         after (ephemeral_configure "Offline model not loaded yet" "red") ;;
         ret None
       else
         txt <- recognize_vosk audio ;; ret (Some txt)
     else
       txt <- perform (recognize_google audio) ;; ret (Some txt)) ;;
  match recognized with
  | None => ret tt
  | Some txt =>
      after (transcript_insert (txt ++ Str.newline)) ;;
      after (ephemeral_configure "Transcription successful" "green") ;;
      process_text txt
  end.

(** The [except] clauses of [listen], tried in order. *)
Definition listen_handler (exc : exn) : M unit :=
  match exc with
  | RequestError _ =>
      after (ephemeral_configure "API unavailable" "red")
  | UnknownValueError =>
      after (ephemeral_configure "Could not understand audio" "red")
  | Exception _ =>
      except_as exc (fun e => after (ephemeral_configure_error e))
  end.

(** [listen()] *)
Definition listen : M unit :=
  try_finally (try_except listen_body listen_handler) (after stop_progress).

End Program.

(** ** State *)

(** The widgets the program reads and writes. *)
Record Gui : Type := mkGui {
  persistent_status_label : string;
  ephemeral_status_label : string * string;     (* text, fg_color *)
  progress_bar : bool;                          (* packed and running *)
  phrase_entry : string;
  transcript_text : string;
  key_phrase_text : string;
  toggle_var : bool
}.

(** What the world answers to each call of one thread. *)
Definition oracle : Type := forall X : Type, call X -> result X.

(** The functions the program runs in threads of their own. *)
Inductive target : Type := target_listen | target_load_vosk_model.

(** A running thread: what the world will answer to it, and what is left of
    its function. *)
Record thread : Type := mkThread {
  thread_target : target;        (* [threading.Thread(target=...)] *)
  world : oracle;
  code : M unit
}.

(** A call made to a library or a device. *)
Inductive event : Type :=
| Ev {X : Type} (c : call X).

Record App : Type := mkApp {
  VoskModel_available : bool;          (* the import of vosk succeeded *)
  vosk_model : option VoskModel;
  is_vosk_loaded : bool;
  gui : Gui;
  cells : list (option exn);           (* the [e] of each except clause entered *)
  after_queue : list callback;         (* callbacks the event loop has yet to run *)
  threads : list thread;               (* the live background threads *)
  log : list event;                    (* the calls made to libraries and devices *)
  callback_errors : list string;       (* exceptions raised by callbacks *)
  uncaught : list exn                  (* exceptions that ended a thread *)
}.

Definition with_vosk_model (m : option VoskModel) (st : App) : App :=
  mkApp (VoskModel_available st) m (is_vosk_loaded st) (gui st) (cells st)
        (after_queue st) (threads st) (log st) (callback_errors st) (uncaught st).

Definition with_is_vosk_loaded (b : bool) (st : App) : App :=
  mkApp (VoskModel_available st) (vosk_model st) b (gui st) (cells st)
        (after_queue st) (threads st) (log st) (callback_errors st) (uncaught st).

Definition with_gui (g : Gui) (st : App) : App :=
  mkApp (VoskModel_available st) (vosk_model st) (is_vosk_loaded st) g (cells st)
        (after_queue st) (threads st) (log st) (callback_errors st) (uncaught st).

Definition with_cells (cs : list (option exn)) (st : App) : App :=
  mkApp (VoskModel_available st) (vosk_model st) (is_vosk_loaded st) (gui st) cs
        (after_queue st) (threads st) (log st) (callback_errors st) (uncaught st).

Definition with_after_queue (q : list callback) (st : App) : App :=
  mkApp (VoskModel_available st) (vosk_model st) (is_vosk_loaded st) (gui st)
        (cells st) q (threads st) (log st) (callback_errors st) (uncaught st).

Definition with_threads (ts : list thread) (st : App) : App :=
  mkApp (VoskModel_available st) (vosk_model st) (is_vosk_loaded st) (gui st)
        (cells st) (after_queue st) ts (log st) (callback_errors st) (uncaught st).

Definition with_log (l : list event) (st : App) : App :=
  mkApp (VoskModel_available st) (vosk_model st) (is_vosk_loaded st) (gui st)
        (cells st) (after_queue st) (threads st) l (callback_errors st) (uncaught st).

Definition with_callback_errors (l : list string) (st : App) : App :=
  mkApp (VoskModel_available st) (vosk_model st) (is_vosk_loaded st) (gui st)
        (cells st) (after_queue st) (threads st) (log st) l (uncaught st).

Definition with_uncaught (l : list exn) (st : App) : App :=
  mkApp (VoskModel_available st) (vosk_model st) (is_vosk_loaded st) (gui st)
        (cells st) (after_queue st) (threads st) (log st) (callback_errors st) l.

Definition with_persistent (s : string) (g : Gui) : Gui :=
  mkGui s (ephemeral_status_label g) (progress_bar g) (phrase_entry g)
        (transcript_text g) (key_phrase_text g) (toggle_var g).

Definition with_ephemeral (s : string * string) (g : Gui) : Gui :=
  mkGui (persistent_status_label g) s (progress_bar g) (phrase_entry g)
        (transcript_text g) (key_phrase_text g) (toggle_var g).

Definition with_progress (b : bool) (g : Gui) : Gui :=
  mkGui (persistent_status_label g) (ephemeral_status_label g) b (phrase_entry g)
        (transcript_text g) (key_phrase_text g) (toggle_var g).

Definition with_phrase_entry (s : string) (g : Gui) : Gui :=
  mkGui (persistent_status_label g) (ephemeral_status_label g) (progress_bar g) s
        (transcript_text g) (key_phrase_text g) (toggle_var g).

Definition with_transcript (s : string) (g : Gui) : Gui :=
  mkGui (persistent_status_label g) (ephemeral_status_label g) (progress_bar g)
        (phrase_entry g) s (key_phrase_text g) (toggle_var g).

Definition with_key_phrase (s : string) (g : Gui) : Gui :=
  mkGui (persistent_status_label g) (ephemeral_status_label g) (progress_bar g)
        (phrase_entry g) (transcript_text g) s (toggle_var g).

Definition with_toggle (b : bool) (g : Gui) : Gui :=
  mkGui (persistent_status_label g) (ephemeral_status_label g) (progress_bar g)
        (phrase_entry g) (transcript_text g) (key_phrase_text g) b.

(** The state when [app.mainloop()] is entered: the widgets as the script
    creates them, the globals as it initialises them, and the one callback it
    has scheduled, [app.after(100, load_model_in_thread)]. *)
Definition initial_gui : Gui :=
  mkGui "Initializing..." ("", "") false "safety, start, stop, data" "" "" false.

Definition initial (vosk_available : bool) : App :=
  mkApp vosk_available None false initial_gui [] [load_model_in_thread] [] [] [] [].

(** ** Running a program *)

(** Replace the content of a cell. *)
Fixpoint set_nth {A : Type} (n : nat) (a : A) (l : list A) : list A :=
  match l, n with
  | [], _ => []
  | _ :: l', O => a :: l'
  | x :: l', S n' => x :: set_nth n' a l'
  end.

(** One call: its outcome and the state after it.  A call to a library or a
    device is answered by the world and logged; a call on the program's own
    state, on a widget or on the event loop succeeds. *)
Definition exec {X : Type} (w : oracle) (c : call X) (st : App)
  : result X * App :=
  match c in call X return result X * App with
  | VoskModel_imported => (Ok (VoskModel_available st), st)
  | get_vosk_model => (Ok (vosk_model st), st)
  | set_vosk_model m => (Ok tt, with_vosk_model (Some m) st)
  | get_is_vosk_loaded => (Ok (is_vosk_loaded st), st)
  | set_is_vosk_loaded b => (Ok tt, with_is_vosk_loaded b st)
  | toggle_var_get => (Ok (toggle_var (gui st)), st)
  | phrase_entry_get => (Ok (phrase_entry (gui st)), st)
  | app_after cb => (Ok tt, with_after_queue (after_queue st ++ [cb]) st)
  | bind_except e =>
      (Ok (List.length (cells st)), with_cells (cells st ++ [Some e]) st)
  | unbind_except c => (Ok tt, with_cells (set_nth c None (cells st)) st)
  | _ as c' => (w _ c', with_log (log st ++ [Ev c']) st)
  end%list.

(** A program run to its end by one thread, nothing else running. *)
Fixpoint run {A : Type} (w : oracle) (p : prog A) (st : App) : A * App :=
  match p with
  | Ret a => (a, st)
  | Do c k => let (r, st') := exec w c st in run w (k r) st'
  end.

Definition spawn (t : thread) (st : App) : App :=
  with_threads (threads st ++ [t])%list st.

(** The state when a thread ends with outcome [r]: an exception that
    reaches the end of the thread's function is recorded as uncaught. *)
Definition ended (r : result unit) (st : App) : App :=
  match r with
  | Ok _ => st
  | Raised e => with_uncaught (uncaught st ++ [e])%list st
  end.

Section Semantics.

Variable nlp : string -> Doc.

(** A callback run by the event loop.  [w] is what the world will answer to
    the thread the callback starts, if it starts one.  A lambda that reads
    [e] raises [NameError] when [e] is no longer bound; the event loop reports
    the exception and goes on. *)
Definition run_callback (w : oracle) (cb : callback) (st : App) : App :=
  match cb with
  | start_progress => with_gui (with_progress true (gui st)) st
  | stop_progress => with_gui (with_progress false (gui st)) st
  | persistent_configure txt => with_gui (with_persistent txt (gui st)) st
  | persistent_configure_error e =>
      match nth e (cells st) None with
      | Some exc =>
          with_gui (with_persistent
                      ("Error loading offline model: " ++ exn_str exc) (gui st)) st
      | None => with_callback_errors (callback_errors st ++ ["NameError"])%list st
      end
  | ephemeral_configure txt fg_color =>
      with_gui (with_ephemeral (txt, fg_color) (gui st)) st
  | ephemeral_configure_error e =>
      match nth e (cells st) None with
      | Some exc =>
          with_gui (with_ephemeral ("Error: " ++ exn_str exc, "red") (gui st)) st
      | None => with_callback_errors (callback_errors st ++ ["NameError"])%list st
      end
  | transcript_insert s =>
      with_gui (with_transcript (transcript_text (gui st) ++ s) (gui st)) st
  | key_phrase_insert s =>
      with_gui (with_key_phrase (key_phrase_text (gui st) ++ s) (gui st)) st
  | load_model_in_thread =>
      spawn (mkThread target_load_vosk_model w load_vosk_model) st
  | start_listening_thread => spawn (mkThread target_listen w (listen nlp)) st
  end.

(** The event loop runs every pending callback, oldest first. *)
Definition mainloop_drain (w : oracle) (st : App) : App :=
  fold_left (fun s cb => run_callback w cb s) (after_queue st)
            (with_after_queue [] st).

(** What the operator and the scheduler can do next.  The two text boxes
    are ordinary [CTkTextbox] widgets, never disabled: the operator can edit
    them, after which they hold any text [s]. *)
Inductive action : Type :=
| press_listen_button (w : oracle)   (* command=start_listening_thread *)
| switch_toggle (b : bool)
| type_phrases (s : string)
| edit_transcript (s : string)       (* the operator edits [transcript_text] *)
| edit_key_phrases (s : string)      (* the operator edits [key_phrase_text] *)
| mainloop_next (w : oracle)         (* the event loop runs its oldest callback *)
| thread_next (i : nat).             (* thread [i] makes its next call, or ends *)

Definition remove_nth {A : Type} (n : nat) (l : list A) : list A :=
  (firstn n l ++ skipn (S n) l)%list.

Definition step (a : action) (st : App) : option App :=
  match a with
  | press_listen_button w => Some (run_callback w start_listening_thread st)
  | switch_toggle b => Some (with_gui (with_toggle b (gui st)) st)
  | type_phrases s => Some (with_gui (with_phrase_entry s (gui st)) st)
  | edit_transcript s => Some (with_gui (with_transcript s (gui st)) st)
  | edit_key_phrases s => Some (with_gui (with_key_phrase s (gui st)) st)
  | mainloop_next w =>
      match after_queue st with
      | [] => None
      | cb :: q => Some (run_callback w cb (with_after_queue q st))
      end
  | thread_next i =>
      match nth_error (threads st) i with
      | None => None
      | Some t =>
          match code t with
          | Ret r =>
              Some (ended r (with_threads (remove_nth i (threads st)) st))
          | Do c k =>
              let (r, st') := exec (world t) c st in
              Some (with_threads
                      (set_nth i (mkThread (thread_target t) (world t) (k r))
                               (threads st')) st')
          end
      end
  end.

Fixpoint steps (l : list action) (st : App) : option App :=
  match l with
  | [] => Some st
  | a :: l' => match step a st with
               | None => None
               | Some st' => steps l' st'
               end
  end.

(** One listen cycle on its own: the thread runs [listen] to its end, then
    the event loop runs the callbacks it was handed. *)
Definition run_cycle (w : oracle) (st : App) : App :=
  mainloop_drain w (snd (run w (listen nlp) st)).

End Semantics.

(** The listen cycles in progress, and the state in which there is none. *)
Definition is_cycle (t : thread) : bool :=
  match thread_target t with target_listen => true | _ => false end.

Definition cycles (st : App) : list thread := filter is_cycle (threads st).

Definition idle (st : App) : bool :=
  match cycles st with [] => true | _ => false end.

(** The callbacks a program has handed to the event loop, given the state
    before and the state after. *)
Definition scheduled (before after_ : App) : list callback :=
  skipn (List.length (after_queue before)) (after_queue after_).

(** The library calls a program has made, in the same way. *)
Definition called (before after_ : App) : list event :=
  skipn (List.length (log before)) (log after_).

(** Callbacks that write to the transcript or to the key phrases, and
    callbacks that set an error status (red). *)
Definition is_transcript_insert (cb : callback) : bool :=
  match cb with transcript_insert _ => true | _ => false end.

Definition is_insert (cb : callback) : bool :=
  match cb with
  | transcript_insert _ => true
  | key_phrase_insert _ => true
  | _ => false
  end.

Definition is_error_status (cb : callback) : bool :=
  match cb with
  | ephemeral_configure _ fg_color => String.eqb fg_color "red"
  | ephemeral_configure_error _ => true
  | _ => false
  end.

(** The calls of a log that start a capture, a recognition, a model load. *)
Definition is_capture (e : event) : bool :=
  match e with Ev (Recognizer_listen _ _) => true | _ => false end.

Definition is_recognize (e : event) : bool :=
  match e with
  | Ev (recognize_google _) => true
  | Ev (AcceptWaveform _ _) => true
  | _ => false
  end.

Definition is_decoder_call (e : event) : bool :=
  match e with
  | Ev (get_raw_data _ _ _) => true
  | Ev (KaldiRecognizer_new _ _) => true
  | Ev (AcceptWaveform _ _) => true
  | Ev (Result _) => true
  | Ev (FinalResult _) => true
  | Ev (json_loads _) => true
  | Ev (recognize_google _) => true
  | _ => false
  end.

Definition is_load_attempt (e : event) : bool :=
  match e with Ev (VoskModel_new _) => true | _ => false end.

Definition count {A : Type} (f : A -> bool) (l : list A) : nat :=
  List.length (filter f l).

(** The world lets the capture succeed and gives [audio]. *)
Definition captures (w : oracle) (audio : AudioData) : Prop :=
  w _ Microphone_enter = Ok tt /\
  w _ (adjust_for_ambient_noise (1 # 2)) = Ok tt /\
  w _ (Recognizer_listen (3 # 2) 15) = Ok audio /\
  w _ Microphone_exit = Ok tt.

(** The line [process_text] hands the event loop for the key phrases. *)
Definition key_phrase_line (nlp : string -> Doc) (txt user_input : string)
  : callback :=
  match extract_phrases nlp txt (target_phrases_of user_input) with
  | [] => key_phrase_insert ("No key phrases detected." ++ Str.newline)
  | phrases =>
      key_phrase_insert
        ("Key Phrases: " ++ Str.join ", " phrases ++ Str.newline)
  end.

(** Worlds given by one answer per library call; the calls on the program's
    own state are not answered by the world. *)
Record World : Type := mkWorld {
  on_Microphone_enter : result unit;
  on_Microphone_exit : result unit;
  on_adjust_for_ambient_noise : result unit;
  on_listen : result AudioData;
  on_get_raw_data : result (list Byte.byte);
  on_recognize_google : result string;
  on_VoskModel_new : result VoskModel;
  on_KaldiRecognizer_new : result KaldiRecognizer;
  on_AcceptWaveform : result bool;
  on_Result : result string;
  on_FinalResult : result string;
  on_json_loads : string -> result json_dict
}.

Definition answers (w : World) : oracle :=
  fun X c =>
    match c in call X return result X with
    | Microphone_enter => on_Microphone_enter w
    | Microphone_exit => on_Microphone_exit w
    | adjust_for_ambient_noise _ => on_adjust_for_ambient_noise w
    | Recognizer_listen _ _ => on_listen w
    | get_raw_data _ _ _ => on_get_raw_data w
    | recognize_google _ => on_recognize_google w
    | VoskModel_new _ => on_VoskModel_new w
    | KaldiRecognizer_new _ _ => on_KaldiRecognizer_new w
    | AcceptWaveform _ _ => on_AcceptWaveform w
    | Result _ => on_Result w
    | FinalResult _ => on_FinalResult w
    | json_loads s => on_json_loads w s
    | VoskModel_imported => Ok true
    | get_vosk_model => Ok None
    | set_vosk_model _ => Ok tt
    | get_is_vosk_loaded => Ok false
    | set_is_vosk_loaded _ => Ok tt
    | toggle_var_get => Ok false
    | phrase_entry_get => Ok ""
    | app_after _ => Ok tt
    | bind_except _ => Ok 0
    | unbind_except _ => Ok tt
    end.

Definition silence : AudioData := mkAudio [] 44100 2.

(** A world in which every call succeeds and the online service hears
    [heard]. *)
Definition fine_world (heard : string) : World :=
  mkWorld (Ok tt) (Ok tt) (Ok tt) (Ok silence) (Ok []) (Ok heard)
          (Ok (mkVoskModel 1)) (Ok (mkKaldi 1)) (Ok true)
          (Ok "{}") (Ok "{}") (fun _ => Ok [("text", heard)]).

(** A world without a microphone. *)
Definition no_microphone : World :=
  mkWorld (Raised (Exception "No Default Input Device Available"))
          (Ok tt) (Ok tt) (Ok silence) (Ok []) (Ok "")
          (Ok (mkVoskModel 1)) (Ok (mkKaldi 1)) (Ok true)
          (Ok "{}") (Ok "{}") (fun _ => Ok []).

(** A world in which the online service cannot be reached. *)
Definition no_network : World :=
  mkWorld (Ok tt) (Ok tt) (Ok tt) (Ok silence) (Ok [])
          (Raised (RequestError "recognition connection failed"))
          (Ok (mkVoskModel 1)) (Ok (mkKaldi 1)) (Ok true)
          (Ok "{}") (Ok "{}") (fun _ => Ok []).

(** A reference tokenizer for texts made of words and spaces: a space ends
    the current token; a space that follows no word is a token of its own. *)
Fixpoint ws_split (cur s : string) : Doc :=
  match s with
  | EmptyString => if Str.truthy cur then [mkToken cur false] else []
  | String c s' =>
      if Ascii.eqb c " " then
        (if Str.truthy cur then mkToken cur true else mkToken " " false)
          :: ws_split "" s'
      else ws_split (cur ++ String c "") s'
  end.

Definition ws_nlp (s : string) : Doc := ws_split "" s.


(** ** The claims of the specification, as written

    Each is stated here the way the specification words it, to be compared
    with what the program does. *)

(** Token sequences equal up to case. *)
Definition same_tokens_nocase (a b : list Token) : Prop :=
  map Str.lower (orths a) = map Str.lower (orths b).

(** "The matcher reports a match at each span of consecutive tokens of the
    text whose token sequence equals the phrase's token sequence
    case-insensitively." *)
Definition reports_nocase_matches (nlp : string -> Doc) : Prop :=
  forall (T : string) (P : list string) (p : string) (start stop : nat),
    In p P -> Str.truthy (Str.strip p) = true ->
    start < stop <= List.length (nlp T) ->
    same_tokens_nocase (slice start stop (nlp T)) (nlp (Str.strip p)) ->
    In (span_text (slice start stop (nlp T))) (extract_phrases nlp T P).

(** "Starting a cycle while one is in progress is a no-op: no second
    concurrent cycle starts." *)
Definition start_cycle_is_guarded (nlp : string -> Doc) : Prop :=
  forall (w : oracle) (st st' : App),
    idle st = false ->
    step nlp (press_listen_button w) st = Some st' ->
    List.length (cycles st') = List.length (cycles st).

(** "A second call of the load is a no-op": it makes no load attempt. *)
Definition second_load_is_noop : Prop :=
  forall (w1 w2 : oracle) (st : App),
    count is_load_attempt
      (called (snd (run w1 load_vosk_model st))
              (snd (run w2 load_vosk_model (snd (run w1 load_vosk_model st)))))
    = 0.

(** A state in which nothing is pending and nothing runs. *)
Definition quiescent : App := with_after_queue [] (initial true).

(** [m] occurs in [T] as it is. *)
Definition literal_substring (m T : string) : Prop :=
  exists pre post : string, T = pre ++ m ++ post.

(** Order of occurrence: by start, then by end. *)
Definition span_lt (a b : nat * nat) : Prop :=
  fst a < fst b \/ (fst a = fst b /\ snd a < snd b).

(** The tokenizer loses nothing: the tokens of a text, with their spaces,
    spell the text. *)
Definition nondestructive (nlp : string -> Doc) : Prop :=
  forall T : string, doc_text (nlp T) = T.

(** Every character of the string is white space (the empty string
    included): what [strip] reduces to nothing. *)
Fixpoint blank (s : string) : bool :=
  match s with
  | EmptyString => true
  | String c s' => Str.isspace c && blank s'
  end.

(** "For every text T, extracting phrases with an empty phrase list, or with
    a list whose entries are all empty or whitespace-only strings, yields an
    empty result with no error raised." *)
Definition blank_phrases_never_raise (nlp : string -> Doc) : Prop :=
  forall (T : string) (P : list string),
    Forall (fun p => blank p = true) P ->
    extract_phrases_outcome nlp T P = Ok [].

(** The spans [extract_phrases] turns into strings. *)
Definition match_spans (nlp : string -> Doc) (T : string) (P : list string)
  : list (nat * nat) :=
  PhraseMatcher.call
    (PhraseMatcher.add PhraseMatcher.empty
       (map (fun phrase => nlp (Str.strip phrase))
            (filter (fun phrase => Str.truthy (Str.strip phrase)) P)))
    (nlp T).

(** ** Vocabulary of the further properties *)

(** The characters of a string. *)
Definition chars (s : string) : list ascii := list_ascii_of_string s.

(** The calls of the offline path (conversion, decoder, reading its result)
    and the call to the online service. *)
Definition is_offline_call (e : event) : bool :=
  match e with
  | Ev (get_raw_data _ _ _) => true
  | Ev (KaldiRecognizer_new _ _) => true
  | Ev (AcceptWaveform _ _) => true
  | Ev (Result _) => true
  | Ev (FinalResult _) => true
  | Ev (json_loads _) => true
  | _ => false
  end.

Definition is_online_call (e : event) : bool :=
  match e with Ev (recognize_google _) => true | _ => false end.

Definition listening_status : callback :=
  ephemeral_configure "Listening..." "blue".

Definition success_status : callback :=
  ephemeral_configure "Transcription successful" "green".

(** What a cycle that recognises [txt] hands to the event loop, [entry]
    being the content of the phrase entry; and what a cycle that fails hands
    over: its error status [err], after "Listening..." or not. *)
Definition success_callbacks (nlp : string -> Doc) (entry txt : string)
  : list callback :=
  [start_progress; listening_status;
   transcript_insert (txt ++ Str.newline); success_status;
   key_phrase_line nlp txt entry; stop_progress].

Definition failure_callbacks (listening : bool) (err : callback)
  : list callback :=
  (start_progress :: (if listening then [listening_status] else [])
     ++ [err; stop_progress])%list.

(** What the loader hands to the event loop when the model loads, and when
    its construction raises ([e] is the cell of the exception). *)
Definition load_success_callbacks : list callback :=
  [persistent_configure "Loading offline voice recognition model...";
   start_progress; stop_progress;
   persistent_configure "Offline loaded | Online available"].

Definition load_failure_callbacks (e : cell) : list callback :=
  [persistent_configure "Loading offline voice recognition model...";
   start_progress; stop_progress; persistent_configure_error e].

(** One run of the loader on its own: the thread runs [load_vosk_model] to
    its end, then the event loop runs the callbacks it was handed. *)
Definition run_loader (nlp : string -> Doc) (w : oracle) (st : App) : App :=
  mainloop_drain nlp w (snd (run w load_vosk_model st)).

(** ** What the programs of the threads may do

    Properties of every execution rest on what the code left to each thread
    can still do; these predicates read it off the program. *)

(** The value a call writes to [is_vosk_loaded], if it writes it; whether a
    call stores a model. *)
Definition written_flag {X : Type} (c : call X) : option bool :=
  match c with
  | set_is_vosk_loaded b => Some b
  | _ => None
  end.

Definition writes_model {X : Type} (c : call X) : bool :=
  match c with
  | set_vosk_model _ => true
  | _ => false
  end.

(** The program sets the flag only to [True], and only once a model is
    stored: [has_model] tells whether one is when the program starts. *)
Fixpoint flag_after_model {A : Type} (has_model : bool) (p : prog A) : Prop :=
  match p with
  | Ret _ => True
  | Do c k =>
      match written_flag c with
      | Some b => b = true /\ has_model = true
      | None => True
      end /\
      forall r, flag_after_model (has_model || writes_model c) (k r)
  end.

Definition has_model (st : App) : bool := negb (is_None (vosk_model st)).

(** In this state the flag is set only if a model is stored, and the code
    left to every thread keeps it so. *)
Definition model_before_flag (st : App) : Prop :=
  (is_vosk_loaded st = true -> vosk_model st <> None) /\
  Forall (fun t => flag_after_model (has_model st) (code t)) (threads st).

(** Every call the program can make is one of those [ok] allows. *)
Fixpoint only {A : Type} (ok : forall X : Type, call X -> bool) (p : prog A)
  : Prop :=
  match p with
  | Ret _ => True
  | Do c k => ok _ c = true /\ forall r, only ok (k r)
  end.

(** Calls that write neither the flag nor the model. *)
Definition writes_no_global (X : Type) (c : call X) : bool :=
  match written_flag c with
  | Some _ => false
  | None => negb (writes_model c)
  end.

(** Whether a call goes to a library or a device (it is then logged), and
    the callback a call hands to the event loop. *)
Definition logged {X : Type} (c : call X) : bool :=
  match c with
  | VoskModel_imported | get_vosk_model | set_vosk_model _
  | get_is_vosk_loaded | set_is_vosk_loaded _ | toggle_var_get
  | phrase_entry_get | app_after _ | bind_except _ | unbind_except _ => false
  | _ => true
  end.

Definition scheduled_by {X : Type} (c : call X) : list callback :=
  match c with
  | app_after cb => [cb]
  | _ => []
  end.

(** The callbacks that start a thread. *)
Definition is_load_cb (cb : callback) : bool :=
  match cb with load_model_in_thread => true | _ => false end.

Definition is_start_cb (cb : callback) : bool :=
  match cb with start_listening_thread => true | _ => false end.

Definition starts_no_thread {X : Type} (c : call X) : bool :=
  forallb (fun cb => negb (is_load_cb cb || is_start_cb cb)) (scheduled_by c).

(** The program makes at most [n] of the library calls that [counted]
    selects, and hands the event loop no callback that starts a thread. *)
Fixpoint quota {A : Type} (counted : event -> bool) (n : nat) (p : prog A)
  : Prop :=
  match p with
  | Ret _ => True
  | Do c k =>
      starts_no_thread c = true /\
      if logged c && counted (Ev c)
      then match n with
           | O => False
           | S n' => forall r, quota counted n' (k r)
           end
      else forall r, quota counted n (k r)
  end.

(** Calls that are not counted and start no thread. *)
Definition uncounted (counted : event -> bool) (X : Type) (c : call X) : bool :=
  starts_no_thread c && negb (logged c && counted (Ev c)).

(** The presses of the button among the actions. *)
Definition presses (l : list action) : nat :=
  count (fun a => match a with press_listen_button _ => true | _ => false end) l.

(** The calls that open the microphone. *)
Definition is_microphone_open (e : event) : bool :=
  match e with Ev Microphone_enter => true | _ => false end.

(** The operator's edits of the two text boxes. *)
Definition is_edit (a : action) : bool :=
  match a with
  | edit_transcript _ | edit_key_phrases _ => true
  | _ => false
  end.

(** The callbacks that write a key phrase line. *)
Definition is_key_phrase_insert (cb : callback) : bool :=
  match cb with key_phrase_insert _ => true | _ => false end.

(** * Properties *)

(** ** The phrase matcher *)

Module MatcherFacts.
Import PhraseMatcher.

Lemma map_get_In (n : node) (key : string) (r : list string) :
  In r (map_get n key) <-> In (key :: r) n.
Proof.
  unfold map_get. rewrite in_flat_map. split.
  - intros [p [Hp Hr]]. destruct p as [|k p']; [contradiction|].
    destruct (String.eqb_spec k key) as [->|]; [|contradiction].
    destruct Hr as [<-|[]]. exact Hp.
  - intros H. exists (key :: r). split; [exact H|].
    rewrite String.eqb_refl. now left.
Qed.

Lemma terminal_In (n : node) : terminal n = true <-> In [] n.
Proof.
  unfold terminal. rewrite existsb_exists. split.
  - intros [p [Hp Hnil]]. destruct p; [exact Hp|discriminate].
  - intros H. now exists [].
Qed.

Lemma present_false (n : node) : present n = false -> n = [].
Proof. destruct n; [reflexivity|discriminate]. Qed.

(** The walk from a node reports exactly the ends at which a stored
    remainder has been read. *)
Lemma walk_spec (rest : list Token) :
  forall (n : node) (start idy s e : nat),
    In (s, e) (walk n start idy rest) <->
    s = start /\
    exists k, e = idy + k /\ k <= List.length rest /\
              In (orths (firstn k rest)) n.
Proof.
  induction rest as [|t rest IH]; intros n start idy s e; simpl.
  - rewrite app_nil_r. split.
    + destruct (terminal n) eqn:Ht; [|intros []].
      intros [H|[]]. inversion H; subst. split; [reflexivity|].
      exists 0. rewrite Nat.add_0_r. repeat split; [lia|].
      now apply terminal_In.
    + intros [-> [k [-> [Hk Hin]]]]. assert (k = 0) by lia. subst k.
      simpl in Hin. apply terminal_In in Hin. rewrite Hin.
      rewrite Nat.add_0_r. now left.
  - rewrite in_app_iff. split.
    + intros [H|H].
      * destruct (terminal n) eqn:Ht; [|destruct H].
        destruct H as [H|[]]. inversion H; subst. split; [reflexivity|].
        exists 0. rewrite Nat.add_0_r. repeat split; [lia|].
        now apply terminal_In.
      * destruct (present (map_get n (text t))) eqn:Hp; [|destruct H].
        apply IH in H. destruct H as [-> [k [-> [Hk Hin]]]].
        split; [reflexivity|]. exists (S k). repeat split; [lia|lia|].
        simpl. now apply map_get_In.
    + intros [-> [k [-> [Hk Hin]]]]. destruct k as [|k].
      * left. simpl in Hin. apply terminal_In in Hin. rewrite Hin.
        rewrite Nat.add_0_r. now left.
      * right. simpl in Hin. apply map_get_In in Hin.
        destruct (present (map_get n (text t))) eqn:Hp.
        -- apply IH. split; [reflexivity|]. exists k.
           repeat split; [lia|lia|exact Hin].
        -- apply present_false in Hp. rewrite Hp in Hin. destruct Hin.
Qed.

(** The matcher reports exactly the non-empty spans whose keys are a stored
    pattern. *)
Lemma find_matches_spec (root : node) (rest : list Token) :
  forall (idx s e : nat),
    In (s, e) (find_matches root idx rest) <->
    exists i k, s = idx + i /\ e = s + S k /\
                i + S k <= List.length rest /\
                In (orths (firstn (S k) (skipn i rest))) root.
Proof.
  induction rest as [|t rest IH]; intros idx s e; simpl.
  - split; [intros []|]. intros [i [k [_ [_ [H _]]]]]. lia.
  - rewrite in_app_iff. split.
    + intros [H|H].
      * destruct (present (map_get root (text t))) eqn:Hp; [|destruct H].
        apply walk_spec in H. destruct H as [-> [k [-> [Hk Hin]]]].
        exists 0, k. rewrite Nat.add_0_r. repeat split; [lia|lia|].
        simpl. now apply map_get_In.
      * apply IH in H. destruct H as [i [k [-> [-> [Hk Hin]]]]].
        exists (S i), k. repeat split; [lia|lia|exact Hin].
    + intros [i [k [-> [-> [Hk Hin]]]]]. destruct i as [|i].
      * left. simpl in Hin. apply map_get_In in Hin.
        destruct (present (map_get root (text t))) eqn:Hp.
        -- apply walk_spec. split; [lia|]. exists k.
           repeat split; [lia|lia|exact Hin].
        -- apply present_false in Hp. rewrite Hp in Hin. destruct Hin.
      * right. apply IH. exists i, k. repeat split; [lia|lia|exact Hin].
Qed.

End MatcherFacts.

(** ** Strings *)

Module StrFacts.
Import Str.

Lemma append_assoc (a b c : string) : (a ++ b) ++ c = a ++ (b ++ c).
Proof. induction a as [|x a IH]; simpl; [reflexivity|now rewrite IH]. Qed.

Lemma append_nil_r (a : string) : a ++ "" = a.
Proof. induction a as [|x a IH]; simpl; [reflexivity|now rewrite IH]. Qed.

Lemma lstrip_blank (s : string) : blank s = true -> lstrip s = "".
Proof.
  induction s as [|c s IH]; simpl; [reflexivity|].
  intros H. apply andb_true_iff in H. destruct H as [Hc Hs].
  rewrite Hc. now apply IH.
Qed.

Lemma strip_blank (s : string) : blank s = true -> strip s = "".
Proof. intros H. unfold strip. now rewrite (lstrip_blank s H). Qed.

Lemma rstrip_empty_blank (s : string) : rstrip s = "" -> blank s = true.
Proof.
  induction s as [|c s IH]; simpl; [reflexivity|].
  destruct (isspace c) eqn:Hc; simpl; [|discriminate].
  destruct (rstrip s) eqn:Hr; simpl; [|discriminate].
  intros _. now apply IH.
Qed.

Lemma lstrip_head (s : string) :
  lstrip s = "" \/ exists c r, lstrip s = String c r /\ isspace c = false.
Proof.
  induction s as [|c s IH]; simpl; [now left|].
  destruct (isspace c) eqn:Hc; [exact IH|].
  right. now exists c, s.
Qed.

(** [strip] leaves nothing exactly of the blank strings. *)
Lemma strip_empty_iff (s : string) : strip s = "" <-> blank s = true.
Proof.
  split; [|apply strip_blank].
  unfold strip. intros H.
  assert (Hl : lstrip s = "").
  { destruct (lstrip_head s) as [E|[c [r [E Hc]]]]; [exact E|].
    rewrite E in H. simpl in H. rewrite Hc in H. discriminate. }
  clear H. induction s as [|c s IH]; simpl in *; [reflexivity|].
  destruct (isspace c); [simpl; now apply IH|discriminate].
Qed.

Lemma truthy_false (s : string) : truthy s = false <-> s = "".
Proof. destruct s; simpl; split; congruence. Qed.

End StrFacts.

(** ** Spans and texts *)

Lemma doc_text_app (a b : list Token) :
  doc_text (a ++ b) = doc_text a ++ doc_text b.
Proof.
  induction a as [|t a IH]; simpl; [reflexivity|].
  now rewrite IH, StrFacts.append_assoc.
Qed.

(** The text of a span starts the text of its tokens. *)
Lemma span_text_prefix (sp : list Token) :
  exists tail : string, doc_text sp = span_text sp ++ tail.
Proof.
  induction sp as [|t sp IH]; [now exists ""|].
  destruct IH as [tail IH]. destruct sp as [|u sp].
  - exists (if whitespace_ t then " " else ""). simpl.
    unfold text_with_ws. now rewrite StrFacts.append_assoc, StrFacts.append_nil_r.
  - exists tail. change (doc_text (t :: u :: sp))
      with (text_with_ws t ++ doc_text (u :: sp)).
    change (span_text (t :: u :: sp))
      with (text_with_ws t ++ span_text (u :: sp)).
    now rewrite IH, StrFacts.append_assoc.
Qed.

Lemma slice_split {A : Type} (start stop : nat) (l : list A) :
  start <= stop ->
  l = (firstn start l ++ slice start stop l ++ skipn stop l)%list.
Proof.
  intros H. unfold slice.
  rewrite <- (firstn_skipn start l) at 1. f_equal.
  rewrite <- (firstn_skipn (stop - start) (skipn start l)) at 1. f_equal.
  rewrite skipn_skipn. f_equal. lia.
Qed.

(** With a tokenizer that loses nothing, the text of a span of the document
    occurs in the text as it is. *)
Lemma span_text_substring (nlp : string -> Doc) (T : string) (start stop : nat) :
  nondestructive nlp -> start <= stop ->
  literal_substring (span_text (slice start stop (nlp T))) T.
Proof.
  intros Hnd Hle. unfold literal_substring.
  destruct (span_text_prefix (slice start stop (nlp T))) as [tail Htail].
  exists (doc_text (firstn start (nlp T))),
         (tail ++ doc_text (skipn stop (nlp T))).
  rewrite <- (Hnd T) at 1.
  rewrite (slice_split start stop (nlp T) Hle) at 1.
  rewrite !doc_text_app, Htail. now rewrite StrFacts.append_assoc.
Qed.

(** ** What [extract_phrases] returns *)

Lemma extract_phrases_spans (nlp : string -> Doc) (T : string) (P : list string) :
  extract_phrases nlp T P =
  map (fun m => span_text (slice (fst m) (snd m) (nlp T))) (match_spans nlp T P).
Proof.
  unfold extract_phrases, match_spans.
  destruct (map (fun phrase => nlp (Str.strip phrase))
                (filter (fun phrase => Str.truthy (Str.strip phrase)) P));
    reflexivity.
Qed.

Lemma In_patterns (nlp : string -> Doc) (P : list string) (x : list string) :
  In x (PhraseMatcher.add PhraseMatcher.empty
          (map (fun phrase => nlp (Str.strip phrase))
               (filter (fun phrase => Str.truthy (Str.strip phrase)) P))) <->
  exists p, In p P /\ Str.truthy (Str.strip p) = true /\
            nlp (Str.strip p) <> [] /\ x = orths (nlp (Str.strip p)).
Proof.
  unfold PhraseMatcher.add, PhraseMatcher.empty. simpl.
  rewrite in_map_iff. split.
  - intros [d [<- Hd]]. apply filter_In in Hd. destruct Hd as [Hd Hlen].
    apply in_map_iff in Hd. destruct Hd as [p [<- Hp]].
    apply filter_In in Hp. destruct Hp as [Hp Ht].
    exists p. repeat split; try assumption.
    intros E. rewrite E in Hlen. discriminate.
  - intros [p [Hp [Ht [Hne ->]]]]. exists (nlp (Str.strip p)).
    split; [reflexivity|]. apply filter_In. split.
    + apply in_map_iff. exists p. split; [reflexivity|].
      apply filter_In. now split.
    + destruct (nlp (Str.strip p)); [congruence|reflexivity].
Qed.

(** The spans matched are exactly the non-empty spans of the document whose
    token texts are those of a phrase that is not blank. *)
Lemma match_spans_spec (nlp : string -> Doc) (T : string) (P : list string)
      (start stop : nat) :
  In (start, stop) (match_spans nlp T P) <->
  start < stop <= List.length (nlp T) /\
  exists p, In p P /\ Str.truthy (Str.strip p) = true /\
            orths (slice start stop (nlp T)) = orths (nlp (Str.strip p)).
Proof.
  unfold match_spans, PhraseMatcher.call.
  rewrite MatcherFacts.find_matches_spec. split.
  - intros [i [k [Hs [He [Hlen Hin]]]]]. simpl in Hs. subst i.
    apply In_patterns in Hin. destruct Hin as [p [Hp [Ht [_ Heq]]]].
    split; [lia|]. exists p. repeat split; try assumption.
    unfold slice. replace (stop - start) with (S k) by lia. exact Heq.
  - intros [Hlen [p [Hp [Ht Heq]]]].
    exists start, (stop - start - 1). repeat split; [lia|lia|].
    apply In_patterns. exists p. repeat split; try assumption.
    + intros E. rewrite E in Heq. unfold slice, orths in Heq.
      apply (f_equal (@List.length string)) in Heq.
      rewrite length_map, length_firstn, length_skipn in Heq. simpl in Heq. lia.
    + unfold slice in Heq. replace (S (stop - start - 1)) with (stop - start) by lia.
      exact Heq.
Qed.

(** ** Order of the matches *)

Lemma StronglySorted_app {A : Type} (R : A -> A -> Prop) (l1 l2 : list A) :
  StronglySorted R l1 -> StronglySorted R l2 ->
  (forall a b, In a l1 -> In b l2 -> R a b) ->
  StronglySorted R (l1 ++ l2).
Proof.
  intros H1 H2 H12. induction H1 as [|a l1 Hl1 IH Ha]; simpl; [exact H2|].
  constructor.
  - apply IH. intros x y Hx Hy. apply H12; [now right|exact Hy].
  - apply Forall_app. split; [exact Ha|].
    apply Forall_forall. intros y Hy. apply H12; [now left|exact Hy].
Qed.

Lemma walk_sorted (rest : list Token) :
  forall (n : PhraseMatcher.node) (start idy : nat),
    StronglySorted span_lt (PhraseMatcher.walk n start idy rest).
Proof.
  induction rest as [|t rest IH]; intros n start idy; simpl.
  - rewrite app_nil_r. destruct (PhraseMatcher.terminal n); repeat constructor.
  - apply StronglySorted_app.
    + destruct (PhraseMatcher.terminal n); repeat constructor.
    + destruct (PhraseMatcher.present _); [apply IH|constructor].
    + intros a [s e] Ha Hb.
      destruct (PhraseMatcher.terminal n); [|destruct Ha].
      destruct Ha as [<-|[]].
      destruct (PhraseMatcher.present _); [|destruct Hb].
      apply MatcherFacts.walk_spec in Hb. destruct Hb as [-> [k [-> _]]].
      right. simpl. split; [reflexivity|lia].
Qed.

(** The matches come by start, and for one start by end: no span is
    reported twice. *)
Lemma find_matches_sorted (root : PhraseMatcher.node) (rest : list Token) :
  forall idx : nat,
    StronglySorted span_lt (PhraseMatcher.find_matches root idx rest).
Proof.
  induction rest as [|t rest IH]; intros idx; simpl; [constructor|].
  apply StronglySorted_app.
  - destruct (PhraseMatcher.present _); [apply walk_sorted|constructor].
  - apply IH.
  - intros [s e] [s' e'] Ha Hb.
    destruct (PhraseMatcher.present _); [|destruct Ha].
    apply MatcherFacts.walk_spec in Ha. destruct Ha as [-> _].
    apply MatcherFacts.find_matches_spec in Hb.
    destruct Hb as [i [k [-> _]]]. left. simpl. lia.
Qed.

(** ** The reference tokenizer *)

Lemma ws_split_text (s : string) :
  forall cur : string, doc_text (ws_split cur s) = cur ++ s.
Proof.
  induction s as [|c s IH]; intros cur; simpl.
  - destruct cur; simpl; [reflexivity|].
    unfold text_with_ws. simpl. now rewrite !StrFacts.append_nil_r.
  - destruct (Ascii.eqb_spec c " ") as [->|Hc].
    + simpl. rewrite IH. destruct cur; simpl; [reflexivity|].
      unfold text_with_ws. simpl. now rewrite StrFacts.append_assoc.
    + rewrite IH. now rewrite StrFacts.append_assoc.
Qed.

Lemma ws_nlp_nondestructive : nondestructive ws_nlp.
Proof. intros T. unfold ws_nlp. now rewrite ws_split_text. Qed.

Example ws_nlp_ex :
  ws_nlp "Please do a safety  reset" =
  [mkToken "Please" true; mkToken "do" true; mkToken "a" true;
   mkToken "safety" true; mkToken " " false; mkToken "reset" false].
Proof. reflexivity. Qed.

(** The scenarios of the specification. *)
Example extract_safety_reset :
  extract_phrases ws_nlp "Please do a safety reset now" ["safety reset"]
  = ["safety reset"].
Proof. reflexivity. Qed.

Example extract_nothing :
  extract_phrases ws_nlp "no relevant words here" ["safety reset"; "start"] = [].
Proof. reflexivity. Qed.

(** Overlapping matches are all reported, by start and then by end. *)
Example extract_overlapping :
  extract_phrases ws_nlp "start the start up now" ["start"; "start up"; " now "]
  = ["start"; "start"; "start up"; "now"].
Proof. reflexivity. Qed.

(** ** C1: which spans match *)

(** Whatever the tokenizer, as long as it splits the two texts into their
    two words: the phrase "safety reset" is not found in "Safety Reset". *)
Lemma capitalised_text_not_matched (nlp : string -> Doc) :
  orths (nlp "Safety Reset") = ["Safety"; "Reset"] ->
  orths (nlp "safety reset") = ["safety"; "reset"] ->
  extract_phrases nlp "Safety Reset" ["safety reset"] = [].
Proof.
  intros HT Hp. rewrite extract_phrases_spans.
  destruct (match_spans nlp "Safety Reset" ["safety reset"])
    as [|[start stop] l] eqn:E; [reflexivity|].
  exfalso.
  assert (Hin : In (start, stop)
                   (match_spans nlp "Safety Reset" ["safety reset"]))
    by (rewrite E; now left).
  apply match_spans_spec in Hin.
  destruct Hin as [Hlen [p [[<-|[]] [_ Heq]]]].
  change (Str.strip "safety reset") with "safety reset" in Heq.
  rewrite Hp in Heq. unfold slice, orths in *.
  rewrite <- firstn_map, <- skipn_map, HT in Heq.
  assert (Hl : List.length (nlp "Safety Reset") = 2)
    by (rewrite <- (length_map text), HT; reflexivity).
  rewrite Hl in Hlen.
  destruct start as [|[|start]]; destruct stop as [|[|[|stop]]];
    try lia; discriminate Heq.
Qed.

(** C1, as the specification states it, fails: the matcher is built without
    a matching attribute, so it compares the verbatim token texts, and the
    text "Safety Reset" does not match the phrase "safety reset". *)
Lemma case_insensitive_match_fails : ~ reports_nocase_matches ws_nlp.
Proof.
  intros H.
  specialize (H "Safety Reset" ["safety reset"] "safety reset" 0 2).
  simpl in H. apply H; try reflexivity.
  - now left.
  - lia.
Qed.

(** C1, amended: for every tokenizer, text and phrase list, every non-empty
    span of the text's tokens whose token texts equal, case included, those
    of a phrase of the list (stripped, not blank) is reported as a match;
    so a text with the tokens "safety reset" matches the phrase
    "safety reset". *)
Theorem exact_spans_are_matched
    (nlp : string -> Doc) (T : string) (P : list string) (p : string)
    (start stop : nat) :
  In p P -> Str.truthy (Str.strip p) = true ->
  start < stop <= List.length (nlp T) ->
  orths (slice start stop (nlp T)) = orths (nlp (Str.strip p)) ->
  In (start, stop) (match_spans nlp T P) /\
  In (span_text (slice start stop (nlp T))) (extract_phrases nlp T P).
Proof.
  intros Hp Ht Hlen Heq.
  assert (Hin : In (start, stop) (match_spans nlp T P)).
  { apply match_spans_spec. split; [exact Hlen|]. now exists p. }
  split; [exact Hin|].
  rewrite extract_phrases_spans. apply in_map_iff.
  exists (start, stop). now split.
Qed.

Lemma exact_spans_are_matched_witness :
  In "safety reset"
     (extract_phrases ws_nlp "Please do a safety reset now" ["safety reset"]).
Proof.
  apply (exact_spans_are_matched ws_nlp "Please do a safety reset now"
           ["safety reset"] "safety reset" 3 5).
  - now left.
  - reflexivity.
  - simpl. lia.
  - reflexivity.
Defined.

(** ** C6: what the matches are *)

(** C6: with a tokenizer that loses nothing, for every phrase list and text
    the strings returned are the texts of the matched spans, the spans come
    in order of occurrence, and each span is non-empty, its text occurs in
    the text as it is (casing included), and its token texts are those of a
    phrase of the list after stripping, hence also equal to them up to
    case. *)
Theorem extract_phrases_sound
    (nlp : string -> Doc) (T : string) (P : list string) :
  nondestructive nlp ->
  extract_phrases nlp T P =
    map (fun m => span_text (slice (fst m) (snd m) (nlp T)))
        (match_spans nlp T P) /\
  StronglySorted span_lt (match_spans nlp T P) /\
  Forall (fun m =>
            fst m < snd m <= List.length (nlp T) /\
            literal_substring (span_text (slice (fst m) (snd m) (nlp T))) T /\
            exists p, In p P /\ Str.truthy (Str.strip p) = true /\
              orths (slice (fst m) (snd m) (nlp T)) = orths (nlp (Str.strip p)) /\
              same_tokens_nocase (slice (fst m) (snd m) (nlp T))
                                 (nlp (Str.strip p)))
         (match_spans nlp T P).
Proof.
  intros Hnd. split; [apply extract_phrases_spans|]. split.
  - apply find_matches_sorted.
  - apply Forall_forall. intros [s e] Hin.
    apply match_spans_spec in Hin. destruct Hin as [Hlen [p [Hp [Ht Heq]]]].
    simpl. split; [exact Hlen|]. split.
    + apply span_text_substring; [exact Hnd|lia].
    + exists p. repeat split; try assumption.
      unfold same_tokens_nocase. now rewrite Heq.
Qed.

Lemma extract_phrases_sound_witness :
  extract_phrases ws_nlp "Do a Safety reset, then a safety reset"
                  ["safety reset"; "Safety"] = ["Safety"; "safety reset"] /\
  StronglySorted span_lt
    (match_spans ws_nlp "Do a Safety reset, then a safety reset"
                 ["safety reset"; "Safety"]).
Proof.
  destruct (extract_phrases_sound ws_nlp "Do a Safety reset, then a safety reset"
              ["safety reset"; "Safety"] ws_nlp_nondestructive) as [_ [H _]].
  split; [reflexivity|exact H].
Defined.

(** ** C7: nothing to look for *)

(** A matcher without patterns matches nothing. *)
Lemma find_matches_empty (rest : list Token) :
  forall idx : nat, PhraseMatcher.find_matches [] idx rest = [].
Proof.
  induction rest as [|t rest IH]; intros idx; [reflexivity|].
  simpl. apply IH.
Qed.


Arguments Str.mul : simpl never.

Lemma len_append (a b : string) :
  Str.len (a ++ b) = (Str.len a + Str.len b)%N.
Proof.
  unfold Str.len. induction a as [|c a IH]; [reflexivity|].
  cbn [append String.length]. rewrite !Nat2N.inj_succ, IH. lia.
Qed.

Lemma len_mul (s : string) (n : N) :
  Str.len (Str.mul s n) = (n * Str.len s)%N.
Proof.
  unfold Str.mul. induction n as [|n IH] using N.peano_ind; [reflexivity|].
  rewrite N.iter_succ, len_append, IH. lia.
Qed.

(** Blank phrases make no pattern, and none is refused. *)
Lemma make_patterns_blank (nlp : string -> Doc) (P : list string) :
  Forall (fun p => blank p = true) P -> make_patterns nlp P = Ok [].
Proof.
  induction 1 as [|p P Hp _ IH]; [reflexivity|].
  cbn [make_patterns]. rewrite (StrFacts.strip_blank p Hp). exact IH.
Qed.

(** The phrases the pipeline accepts make the patterns of
    [extract_phrases]. *)
Lemma make_patterns_accepted (nlp : string -> Doc) (P : list string) :
  Forall (fun p => (Str.len (Str.strip p) <= max_length)%N) P ->
  make_patterns nlp P =
  Ok (map (fun phrase => nlp (Str.strip phrase))
          (filter (fun phrase => Str.truthy (Str.strip phrase)) P)).
Proof.
  induction 1 as [|p P Hp _ IH]; [reflexivity|].
  cbn [make_patterns filter].
  destruct (Str.truthy (Str.strip p)); [|exact IH].
  unfold make_doc. apply N.ltb_ge in Hp. rewrite Hp, IH. reflexivity.
Qed.

(** On a text and phrases the pipeline accepts, the function returns, and
    returns [extract_phrases]. *)
Lemma extract_phrases_outcome_accepted
    (nlp : string -> Doc) (T : string) (P : list string) :
  (Str.len T <= max_length)%N ->
  Forall (fun p => (Str.len (Str.strip p) <= max_length)%N) P ->
  extract_phrases_outcome nlp T P = Ok (extract_phrases nlp T P).
Proof.
  intros HT HP. unfold extract_phrases_outcome, make_doc.
  apply N.ltb_ge in HT. rewrite HT, (make_patterns_accepted nlp P HP).
  reflexivity.
Qed.

(** A text longer than the limit is refused before the phrases are looked
    at. *)
Lemma extract_phrases_outcome_refused
    (nlp : string -> Doc) (T : string) (P : list string) :
  (max_length < Str.len T)%N ->
  extract_phrases_outcome nlp T P = Raised (E088 (Str.len T)).
Proof.
  intros HT. unfold extract_phrases_outcome, make_doc.
  apply N.ltb_lt in HT. now rewrite HT.
Qed.

(** [extract_phrases("a" * 1000001, [])] raises, whatever the tokenizer. *)
Example long_text_refused (nlp : string -> Doc) :
  extract_phrases_outcome nlp (Str.mul "a" 1000001) [] = Raised (E088 1000001).
Proof.
  rewrite extract_phrases_outcome_refused; rewrite len_mul; reflexivity.
Qed.

(** The claim as written fails on that text of 1,000,001 characters, with no
    phrase at all. *)
Lemma long_text_raises : ~ blank_phrases_never_raise ws_nlp.
Proof.
  intros H.
  specialize (H (Str.mul "a" 1000001) [] (Forall_nil _)).
  rewrite extract_phrases_outcome_refused in H; [discriminate H|].
  rewrite len_mul. reflexivity.
Qed.

(** C7, for the texts the pipeline accepts: for every tokenizer and every
    text of at most [nlp.max_length] characters, a phrase list that is empty
    or whose entries are all empty or made of white space only yields an
    empty result, without an exception, and the same result as no phrase at
    all.  For a longer text the call raises [ValueError], whatever the
    phrases. *)
Theorem extract_phrases_blank
    (nlp : string -> Doc) (T : string) (P : list string) :
  Forall (fun p => blank p = true) P ->
  ((Str.len T <= max_length)%N ->
   extract_phrases_outcome nlp T P = Ok [] /\
   extract_phrases_outcome nlp T P = extract_phrases_outcome nlp T []) /\
  ((max_length < Str.len T)%N ->
   extract_phrases_outcome nlp T P = Raised (E088 (Str.len T))).
Proof.
  intros H. split.
  - intros HT.
    assert (Hnone : forall P', Forall (fun p => blank p = true) P' ->
                      extract_phrases_outcome nlp T P' = Ok []).
    { intros P' H'. unfold extract_phrases_outcome, make_doc.
      apply N.ltb_ge in HT. rewrite HT, (make_patterns_blank nlp P' H').
      unfold PhraseMatcher.call, PhraseMatcher.empty.
      now rewrite find_matches_empty. }
    rewrite (Hnone P H), (Hnone [] (Forall_nil _)). now split.
  - apply extract_phrases_outcome_refused.
Qed.

Lemma extract_phrases_blank_witness :
  extract_phrases_outcome ws_nlp "Please do a safety reset now" [""; "  "]
  = Ok [].
Proof.
  apply (extract_phrases_blank ws_nlp "Please do a safety reset now" [""; "  "]).
  - repeat constructor.
  - vm_compute. discriminate.
Defined.

(** ** Running programs *)

Arguments extract_phrases : simpl never.
Arguments target_phrases_of : simpl never.

Lemma skipn_length_app {A : Type} (l x : list A) :
  skipn (List.length l) (l ++ x) = x.
Proof. induction l; simpl; auto. Qed.

Lemma skipn_length {A : Type} (l : list A) : skipn (List.length l) l = [].
Proof. induction l; simpl; auto. Qed.

Lemma run_pbind {A B : Type} (w : oracle) (p : prog A) (f : A -> prog B) :
  forall st : App,
    run w (pbind p f) st = let (a, st') := run w p st in run w (f a) st'.
Proof.
  induction p as [a|X c k IH]; intros st; cbn; [reflexivity|].
  destruct (exec w c st) as [r st']. apply IH.
Qed.

(** A call leaves the widgets alone, and only adds to the queue of the event
    loop and to the log. *)
Lemma exec_frame {X : Type} (w : oracle) (c : call X) (st : App) :
  gui (snd (exec w c st)) = gui st /\
  threads (snd (exec w c st)) = threads st /\
  callback_errors (snd (exec w c st)) = callback_errors st /\
  (exists q, after_queue (snd (exec w c st)) = (after_queue st ++ q)%list) /\
  (exists l, log (snd (exec w c st)) = (log st ++ l)%list).
Proof.
  destruct c; cbn; repeat split;
    solve [ now exists [] ; rewrite app_nil_r
          | eexists; symmetry; apply app_nil_r
          | eexists; reflexivity ].
Qed.

Lemma run_frame {A : Type} (w : oracle) (p : prog A) :
  forall st : App,
    gui (snd (run w p st)) = gui st /\
    threads (snd (run w p st)) = threads st /\
    callback_errors (snd (run w p st)) = callback_errors st /\
    (exists q, after_queue (snd (run w p st)) = (after_queue st ++ q)%list) /\
    (exists l, log (snd (run w p st)) = (log st ++ l)%list).
Proof.
  induction p as [a|X c k IH]; intros st; cbn.
  - repeat split; exists []; now rewrite app_nil_r.
  - destruct (exec_frame w c st) as [Hg [Ht [Hc [[q Hq] [l Hl]]]]].
    destruct (exec w c st) as [r st1]. cbn in *.
    destruct (IH r st1) as [Hg' [Ht' [Hc' [[q' Hq'] [l' Hl']]]]].
    repeat split; try congruence.
    + exists (q ++ q')%list. rewrite Hq', Hq. now rewrite app_assoc.
    + exists (l ++ l')%list. rewrite Hl', Hl. now rewrite app_assoc.
Qed.

Lemma run_after_queue {A : Type} (w : oracle) (p : prog A) (st : App) :
  after_queue (snd (run w p st)) =
  (after_queue st ++ scheduled st (snd (run w p st)))%list.
Proof.
  destruct (run_frame w p st) as [_ [_ [_ [[q Hq] _]]]].
  unfold scheduled. rewrite Hq. now rewrite skipn_length_app.
Qed.

(** ** Threads run their programs *)

Lemma exec_with_threads {X : Type} (w : oracle) (c : call X)
      (ths : list thread) (st : App) :
  exec w c (with_threads ths st) =
  (fst (exec w c st), with_threads ths (snd (exec w c st))).
Proof. destruct c; reflexivity. Qed.

Lemma run_with_threads {A : Type} (w : oracle) (p : prog A) :
  forall (ths : list thread) (st : App),
    run w p (with_threads ths st) =
    (fst (run w p st), with_threads ths (snd (run w p st))).
Proof.
  induction p as [a|X c k IH]; intros ths st; [reflexivity|].
  cbn [run]. rewrite exec_with_threads.
  destruct (exec w c st) as [r st1]. cbn [fst snd]. apply IH.
Qed.

Lemma nth_error_middle {A : Type} (pre post : list A) (a : A) :
  nth_error (pre ++ a :: post) (List.length pre) = Some a.
Proof. induction pre as [|x pre IH]; [reflexivity|exact IH]. Qed.

Lemma set_nth_middle {A : Type} (pre post : list A) (a b : A) :
  set_nth (List.length pre) b (pre ++ a :: post) = (pre ++ b :: post)%list.
Proof. induction pre as [|x pre IH]; simpl; [reflexivity|now rewrite IH]. Qed.

Lemma remove_nth_middle {A : Type} (pre post : list A) (a : A) :
  remove_nth (List.length pre) (pre ++ a :: post) = (pre ++ post)%list.
Proof.
  unfold remove_nth. induction pre as [|x pre IH]; simpl; [reflexivity|].
  f_equal. exact IH.
Qed.

(** A thread scheduled until it ends does what [run] says, whatever the
    other threads of the pool are: the statements about [run] are statements
    about threads. *)
Lemma thread_runs_to_end (nlp : string -> Doc) (tg : target) (w : oracle)
      (p : M unit) :
  forall (st : App) (pre post : list thread),
    threads st = (pre ++ mkThread tg w p :: post)%list ->
    exists n,
      steps nlp (repeat (thread_next (List.length pre)) n) st =
      Some (ended (fst (run w p st))
                  (with_threads (pre ++ post) (snd (run w p st)))).
Proof.
  induction p as [r|X c k IH]; intros st pre post Hth.
  - exists 1. cbn [repeat steps step]. rewrite Hth, nth_error_middle.
    cbn [code run fst snd]. now rewrite remove_nth_middle.
  - destruct (exec_frame w c st) as [_ [Ht _]].
    destruct (exec w c st) as [r st1] eqn:Hexec. cbn [snd] in Ht.
    specialize (IH r
      (with_threads (pre ++ mkThread tg w (k r) :: post) st1) pre post eq_refl).
    destruct IH as [n IH]. exists (S n).
    cbn [repeat steps step]. rewrite Hth, nth_error_middle.
    cbn [code world thread_target]. rewrite Hexec.
    rewrite Ht, Hth, set_nth_middle, IH.
    rewrite run_with_threads. cbn [run fst snd]. rewrite Hexec.
    reflexivity.
Qed.

(** ** The event loop *)

Section Callbacks.

Variable nlp : string -> Doc.
Variable w : oracle.

Lemma drain_transcript (q : list callback) :
  forall st : App,
    Forall (fun cb => is_transcript_insert cb = false) q ->
    transcript_text (gui (fold_left (fun s cb => run_callback nlp w cb s) q st))
    = transcript_text (gui st).
Proof.
  induction q as [|cb q IH]; intros st H; [reflexivity|].
  inversion H as [|? ? Hcb Hq]; subst. simpl. rewrite (IH _ Hq).
  destruct cb; try discriminate; try reflexivity;
    cbn; destruct (nth e (cells st) None); reflexivity.
Qed.

End Callbacks.

Lemma is_insert_transcript (q : list callback) :
  Forall (fun cb => is_insert cb = false) q ->
  Forall (fun cb => is_transcript_insert cb = false) q.
Proof.
  apply Forall_impl. intros cb. destruct cb; simpl; congruence.
Qed.

(** Writing at the end of the cells, then reading there. *)
Lemma nth_set_nth_last {A : Type} (l : list A) (a b d : A) :
  nth (List.length l) (set_nth (List.length l) b (l ++ [a])) d = b.
Proof. induction l as [|x l IH]; simpl; [reflexivity|exact IH]. Qed.

(** ** [listen] never raises *)

Lemma listen_handler_returns (w : oracle) (e : exn) (st : App) :
  fst (run w (listen_handler e) st) = Ok tt.
Proof. destruct e; reflexivity. Qed.

(** Whatever the world answers, every exception of the cycle is caught:
    the thread that runs [listen] ends without one. *)
Lemma listen_never_raises (nlp : string -> Doc) (w : oracle) (st : App) :
  fst (run w (listen nlp) st) = Ok tt.
Proof.
  unfold listen, try_finally, try_except. rewrite !run_pbind.
  destruct (run w (listen_body nlp) st) as [[[]|e] st1].
  - reflexivity.
  - pose proof (listen_handler_returns w e st1) as H.
    destruct (run w (listen_handler e) st1) as [r st2]. cbn in *. now subst r.
Qed.

(** A press of the button, then the thread it starts scheduled until it
    ends, other threads running or not: the thread is gone again, nothing is
    uncaught, and the state is the one [run] gives. *)
Lemma cycle_runs_and_ends (nlp : string -> Doc) (w : oracle) (st : App) :
  exists n,
    steps nlp (press_listen_button w
                 :: repeat (thread_next (List.length (threads st))) n) st =
    Some (with_threads (threads st) (snd (run w (listen nlp) st))).
Proof.
  destruct (thread_runs_to_end nlp target_listen w (listen nlp)
              (spawn (mkThread target_listen w (listen nlp)) st)
              (threads st) [] eq_refl) as [n Hn].
  exists n. cbn [steps step run_callback]. rewrite Hn.
  unfold spawn. rewrite run_with_threads. cbn [fst snd].
  rewrite listen_never_raises, app_nil_r. reflexivity.
Qed.

(** ** Running [listen] call by call *)

Lemma run_ret {A : Type} (w : oracle) (a : A) (st : App) :
  run w (ret a) st = (Ok a, st).
Proof. reflexivity. Qed.

Lemma run_bind {A B : Type} (w : oracle) (m : M A) (f : A -> M B) (st : App) :
  run w (bind m f) st =
  match run w m st with
  | (Ok a, st') => run w (f a) st'
  | (Raised e, st') => (Raised e, st')
  end.
Proof.
  unfold bind. rewrite run_pbind.
  destruct (run w m st) as [[a|e] st']; reflexivity.
Qed.

Lemma run_perform {X : Type} (w : oracle) (c : call X) (st : App) :
  run w (perform c) st = exec w c st.
Proof. unfold perform. cbn. now destruct (exec w c st). Qed.

Lemma run_after (w : oracle) (cb : callback) (st : App) :
  run w (after cb) st =
  (Ok tt, with_after_queue (after_queue st ++ [cb]) st).
Proof. reflexivity. Qed.

Lemma run_try_except {A : Type} (w : oracle) (m : M A) (h : exn -> M A)
      (st : App) :
  run w (try_except m h) st =
  match run w m st with
  | (Ok a, st') => (Ok a, st')
  | (Raised e, st') => run w (h e) st'
  end.
Proof.
  unfold try_except. rewrite run_pbind.
  destruct (run w m st) as [[a|e] st']; reflexivity.
Qed.

Lemma run_try_finally {A : Type} (w : oracle) (m : M A) (fin : M unit)
      (st : App) :
  run w (try_finally m fin) st =
  match run w m st with
  | (r, st') =>
      match run w fin st' with
      | (Ok _, st'') => (r, st'')
      | (Raised e', st'') => (Raised e', st'')
      end
  end.
Proof.
  unfold try_finally. rewrite run_pbind.
  destruct (run w m st) as [r st']. rewrite run_pbind.
  destruct (run w fin st') as [[u|e'] st'']; reflexivity.
Qed.

(** One step of a run: the equation of the construct at the head, then the
    state after it. *)
Ltac run_step :=
  first [ rewrite run_bind | rewrite run_try_finally | rewrite run_try_except
        | rewrite run_after | rewrite run_perform | rewrite run_ret ].

Ltac state_simpl :=
  cbn [exec];
  unfold with_vosk_model, with_is_vosk_loaded, with_gui, with_cells,
         with_after_queue, with_threads, with_log, with_callback_errors,
         with_uncaught;
  cbn [fst snd app List.length negb is_None
       VoskModel_available vosk_model is_vosk_loaded gui cells after_queue
       threads log callback_errors uncaught
       persistent_status_label ephemeral_status_label progress_bar
       phrase_entry transcript_text key_phrase_text toggle_var].

Ltac run_steps := state_simpl; repeat (run_step; state_simpl).

(** [process_text] hands the event loop one line for the key phrases. *)
Lemma run_process_text (nlp : string -> Doc) (w : oracle) (txt : string)
      (st : App) :
  run w (process_text nlp txt) st =
  (Ok tt,
   with_after_queue
     (after_queue st ++ [key_phrase_line nlp txt (phrase_entry (gui st))]) st).
Proof.
  unfold process_text, key_phrase_line. run_steps.
  destruct (extract_phrases nlp txt (target_phrases_of (phrase_entry (gui st))));
    now rewrite run_after.
Qed.

(** The capture when every call of it succeeds. *)
Lemma run_capture (w : oracle) (st : App) (audio : AudioData) :
  captures w audio ->
  run w capture st =
  (Ok audio,
   with_log (log st ++ [Ev Microphone_enter;
                        Ev (adjust_for_ambient_noise (1 # 2));
                        Ev (Recognizer_listen (3 # 2) 15);
                        Ev Microphone_exit])
     (with_after_queue
        (after_queue st ++ [ephemeral_configure "Listening..." "blue"]) st)).
Proof.
  intros (Hmic & Hadj & Hlis & Hexit).
  destruct st as [av vm lo g ce q th lg cbe unc].
  unfold capture, with_Microphone. run_steps.
  rewrite Hmic. run_steps. rewrite Hadj. run_steps.
  rewrite Hlis. run_steps. rewrite Hexit. state_simpl.
  rewrite <- ?app_assoc; reflexivity.
Qed.

(** The capture, whatever the world answers: it leaves the state alone but
    for the calls it logs, none of them to a decoder, and the "Listening..."
    status it may hand over. *)
Lemma run_capture_any (w : oracle) (st : App) :
  exists r q l,
    run w capture st =
      (r, with_log (log st ++ l) (with_after_queue (after_queue st ++ q) st)) /\
    Forall (fun cb => is_insert cb = false /\ is_error_status cb = false) q /\
    count is_decoder_call l = 0 /\
    (forall audio, r = Ok audio ->
       q = [ephemeral_configure "Listening..." "blue"]).
Proof.
  destruct st as [av vm lo g ce q th lg cbe unc].
  unfold capture, with_Microphone. run_steps.
  destruct (w _ Microphone_enter) as [[]|e] eqn:Hmic.
  2:{ exists (Raised e), [], [Ev Microphone_enter]. state_simpl.
      rewrite app_nil_r. now repeat constructor. }
  run_steps.
  destruct (w _ (adjust_for_ambient_noise (1 # 2))) as [[]|e] eqn:Hadj.
  2:{ run_steps. rewrite <- !app_assoc.
      destruct (w _ Microphone_exit) as [[]|e'];
        [exists (Raised e)|exists (Raised e')]; eexists [], _;
        state_simpl; rewrite app_nil_r;
        (split; [reflexivity|]); now repeat constructor. }
  run_steps.
  destruct (w _ (Recognizer_listen (3 # 2) 15)) as [audio|e] eqn:Hlis.
  2:{ run_steps. rewrite <- !app_assoc.
      destruct (w _ Microphone_exit) as [[]|e'];
        [exists (Raised e)|exists (Raised e')]; eexists [_], _;
        state_simpl; (split; [reflexivity|]); now repeat constructor. }
  run_steps. rewrite <- !app_assoc.
  destruct (w _ Microphone_exit) as [[]|e'];
    [exists (Ok audio)|exists (Raised e')]; eexists [_], _; state_simpl;
    (split; [reflexivity|]); now repeat constructor.
Qed.

(** Each clause of the handler hands over one callback, an error status. *)
Lemma run_listen_handler (w : oracle) (e : exn) (st : App) :
  exists cb cs,
    run w (listen_handler e) st =
      (Ok tt, with_cells cs (with_after_queue (after_queue st ++ [cb]) st)) /\
    is_error_status cb = true /\ is_insert cb = false.
Proof.
  destruct st as [av vm lo g ce q th lg cbe unc].
  destruct e; unfold listen_handler, except_as; run_steps;
    eexists _, _; state_simpl; (split; [reflexivity|]); now split.
Qed.

(** ** C3: offline mode without a loaded model *)

Lemma count_app {A : Type} (f : A -> bool) (l1 l2 : list A) :
  count f (l1 ++ l2) = count f l1 + count f l2.
Proof. unfold count. now rewrite filter_app, length_app. Qed.

Lemma count_zero {A : Type} (f : A -> bool) (l : list A) :
  Forall (fun a => f a = false) l -> count f l = 0.
Proof.
  unfold count. induction 1 as [|a l Ha _ IH]; [reflexivity|].
  simpl. now rewrite Ha.
Qed.

(** The cycle with the switch on offline and no model loaded: what it
    leaves behind. *)
Lemma listen_offline_not_loaded (nlp : string -> Doc) (w : oracle) (st : App) :
  toggle_var (gui st) = true ->
  is_vosk_loaded st = false \/ vosk_model st = None ->
  exists q l cs,
    run w (listen nlp) st =
      (Ok tt,
       with_cells cs
         (with_log (log st ++ l)
            (with_after_queue (after_queue st ++ q) st))) /\
    Forall (fun cb => is_insert cb = false) q /\
    count is_decoder_call l = 0 /\
    count is_error_status q = 1 /\
    (forall audio, captures w audio ->
       q = [start_progress; ephemeral_configure "Listening..." "blue";
            ephemeral_configure "Offline model not loaded yet" "red";
            stop_progress]).
Proof.
  intros Htoggle Hmodel.
  destruct st as [av vm lo [ps es pb pe tr kt tv] ce q th lg cbe unc].
  cbn in Htoggle, Hmodel. subst tv.
  unfold listen, listen_body. run_steps.
  match goal with
  | |- context [run w capture ?s] =>
      destruct (run_capture_any w s) as (r & qc & lc & Hrun & Hqc & Hlc & Haud)
  end.
  rewrite Hrun. state_simpl.
  assert (Hqi : Forall (fun cb => is_insert cb = false) qc)
    by (revert Hqc; apply Forall_impl; tauto).
  assert (Hqe : count is_error_status qc = 0)
    by (apply count_zero; revert Hqc; apply Forall_impl; tauto).
  destruct r as [audio|e].
  - specialize (Haud audio eq_refl). subst qc.
    unfold model_not_loaded. run_steps.
    exists [start_progress; ephemeral_configure "Listening..." "blue";
            ephemeral_configure "Offline model not loaded yet" "red";
            stop_progress], lc, ce.
    split.
    { destruct Hmodel as [-> | ->]; [|destruct lo]; run_steps;
        rewrite <- ?app_assoc; reflexivity. }
    split; [repeat constructor|]. split; [exact Hlc|].
    split; [reflexivity|]. intros; reflexivity.
  - destruct (run_listen_handler w e
                {| VoskModel_available := av; vosk_model := vm;
                   is_vosk_loaded := lo;
                   gui := mkGui ps es pb pe tr kt true; cells := ce;
                   after_queue := ((q ++ [start_progress]) ++ qc)%list;
                   threads := th; log := (lg ++ lc)%list;
                   callback_errors := cbe; uncaught := unc |})
      as (cb & cs & Hh & Hcb & Hcbi).
    rewrite Hh. state_simpl. run_steps. rewrite <- !app_assoc.
    exists (start_progress :: qc ++ [cb; stop_progress])%list, lc, cs.
    split; [cbn [app]; rewrite <- ?app_assoc; reflexivity|].
    split.
    { constructor; [reflexivity|]. apply Forall_app. split; [exact Hqi|].
      now repeat constructor. }
    split; [exact Hlc|]. split.
    { change (start_progress :: qc ++ [cb; stop_progress])%list
        with ([start_progress] ++ qc ++ [cb; stop_progress])%list.
      rewrite !count_app, Hqe. unfold count. simpl. now rewrite Hcb. }
    intros audio Hcap. rewrite (run_capture w _ audio Hcap) in Hrun.
    discriminate Hrun.
Qed.

Lemma scheduled_after (st : App) (q : list callback) (l : list event)
      (cs : list (option exn)) :
  scheduled st (with_cells cs (with_log (log st ++ l)
                  (with_after_queue (after_queue st ++ q) st))) = q.
Proof. unfold scheduled. cbn. apply skipn_length_app. Qed.

Lemma called_after (st : App) (q : list callback) (l : list event)
      (cs : list (option exn)) :
  called st (with_cells cs (with_log (log st ++ l)
               (with_after_queue (after_queue st ++ q) st))) = l.
Proof. unfold called. cbn. apply skipn_length_app. Qed.

(** What the event loop leaves of the status once it has run the callbacks
    of such a cycle, whatever it ran before them. *)
Lemma drain_not_loaded (nlp : string -> Doc) (w : oracle)
      (pending : list callback) (st : App) :
  let st' :=
    fold_left (fun s cb => run_callback nlp w cb s)
      (pending ++
       [start_progress; ephemeral_configure "Listening..." "blue";
        ephemeral_configure "Offline model not loaded yet" "red";
        stop_progress])%list st in
  ephemeral_status_label (gui st') = ("Offline model not loaded yet", "red") /\
  progress_bar (gui st') = false.
Proof. cbv zeta. rewrite fold_left_app. split; reflexivity. Qed.

(** C3: a cycle run with the offline switch on while the model is not loaded
    ([is_vosk_loaded] false, or no model stored).  Whatever the world
    answers, the cycle hands the event loop no insertion into the transcript
    or the key phrases and makes no call to a decoder or to the online
    service, and the transcript is what it was once the event loop has run
    the callbacks.  The mode is looked at after the capture: when the capture
    succeeds the cycle ends without an exception, what it hands over is
    "Listening...", then "Offline model not loaded yet" in red, and once the
    event loop has run (whatever was pending before) that is the status
    shown, with the progress bar stopped.  (When the capture itself fails,
    the error is the capture's: see C4.) *)
Theorem offline_without_model (nlp : string -> Doc) (w : oracle) (st : App) :
  toggle_var (gui st) = true ->
  is_vosk_loaded st = false \/ vosk_model st = None ->
  Forall (fun cb => is_insert cb = false)
         (scheduled st (snd (run w (listen nlp) st))) /\
  count is_decoder_call (called st (snd (run w (listen nlp) st))) = 0 /\
  (Forall (fun cb => is_transcript_insert cb = false) (after_queue st) ->
   transcript_text (gui (run_cycle nlp w st)) = transcript_text (gui st)) /\
  (forall audio, captures w audio ->
     fst (run w (listen nlp) st) = Ok tt /\
     scheduled st (snd (run w (listen nlp) st)) =
       [start_progress; ephemeral_configure "Listening..." "blue";
        ephemeral_configure "Offline model not loaded yet" "red";
        stop_progress] /\
     ephemeral_status_label (gui (run_cycle nlp w st))
       = ("Offline model not loaded yet", "red") /\
     progress_bar (gui (run_cycle nlp w st)) = false).
Proof.
  intros Htoggle Hmodel.
  destruct (listen_offline_not_loaded nlp w st Htoggle Hmodel)
    as (q & l & cs & Hrun & Hq & Hl & _ & Hcap).
  unfold run_cycle, mainloop_drain. rewrite Hrun.
  cbn [fst snd]. rewrite scheduled_after, called_after.
  split; [exact Hq|]. split; [exact Hl|]. split.
  - intros Hpending. rewrite drain_transcript; [reflexivity|].
    cbn. apply Forall_app. split; [exact Hpending|].
    now apply is_insert_transcript.
  - intros audio Haudio. specialize (Hcap audio Haudio). subst q.
    split; [reflexivity|]. split; [reflexivity|].
    cbn [after_queue with_cells with_log with_after_queue].
    apply drain_not_loaded.
Qed.

Lemma offline_without_model_witness :
  ephemeral_status_label
    (gui (run_cycle ws_nlp (answers (fine_world "safety reset"))
            (with_gui (with_toggle true initial_gui) (initial true))))
  = ("Offline model not loaded yet", "red") /\
  transcript_text
    (gui (run_cycle ws_nlp (answers (fine_world "safety reset"))
            (with_gui (with_toggle true initial_gui) (initial true))))
  = "".
Proof.
  destruct (offline_without_model ws_nlp (answers (fine_world "safety reset"))
              (with_gui (with_toggle true initial_gui) (initial true))
              eq_refl (or_introl eq_refl)) as [_ [_ [Ht H]]].
  split.
  - destruct (H silence) as [_ [_ [Hs _]]]; [repeat split|exact Hs].
  - apply Ht. repeat constructor.
Defined.

(** ** C4: errors of a cycle *)

(** The online service is unavailable: the cycle hands over the status
    "API unavailable" and nothing for the transcript; once the event loop
    has run, the transcript is what it was, the status shows, and the
    progress bar is stopped. *)
Lemma service_unavailable
    (nlp : string -> Doc) (w : oracle) (st : App) (audio : AudioData)
    (msg : string) :
  toggle_var (gui st) = false ->
  captures w audio ->
  w _ (recognize_google audio) = Raised (RequestError msg) ->
  fst (run w (listen nlp) st) = Ok tt /\
  scheduled st (snd (run w (listen nlp) st)) =
    [start_progress; ephemeral_configure "Listening..." "blue";
     ephemeral_configure "API unavailable" "red"; stop_progress] /\
  (after_queue st = [] ->
   transcript_text (gui (run_cycle nlp w st)) = transcript_text (gui st) /\
   key_phrase_text (gui (run_cycle nlp w st)) = key_phrase_text (gui st) /\
   ephemeral_status_label (gui (run_cycle nlp w st)) = ("API unavailable", "red") /\
   progress_bar (gui (run_cycle nlp w st)) = false /\
   callback_errors (run_cycle nlp w st) = callback_errors st).
Proof.
  intros Htoggle Hcap Hgoogle.
  assert (Hrun : run w (listen nlp) st =
    (Ok tt,
     with_cells (cells st)
       (with_log (log st ++ [Ev Microphone_enter;
                             Ev (adjust_for_ambient_noise (1 # 2));
                             Ev (Recognizer_listen (3 # 2) 15);
                             Ev Microphone_exit;
                             Ev (recognize_google audio)])
          (with_after_queue
             (after_queue st ++
                [start_progress; ephemeral_configure "Listening..." "blue";
                 ephemeral_configure "API unavailable" "red"; stop_progress])
             st)))).
  { destruct st as [av vm lo [ps es pb pe tr kt tv] ce q th lg cbe unc].
    cbn in Htoggle. subst tv.
    unfold listen, listen_body. run_steps.
    rewrite (run_capture w _ audio Hcap). run_steps.
    rewrite Hgoogle. run_steps. unfold listen_handler. run_steps.
    rewrite <- ?app_assoc; reflexivity. }
  unfold run_cycle, mainloop_drain. rewrite Hrun. cbn [fst snd].
  rewrite scheduled_after. split; [reflexivity|]. split; [reflexivity|].
  intros Hq. destruct st as [av vm lo [ps es pb pe tr kt tv] ce q th lg cbe unc].
  cbn in Hq. subst q. cbn. repeat split.
Qed.

(** C4 fails for the exceptions that reach the last clause,
    [except Exception as e]: the callback it hands over reads [e] when the
    event loop runs it, and by then the clause has ended and [e] is unbound.
    When opening the microphone raises such an exception: the cycle ends
    without one and hands over one status callback; the event loop runs it,
    it raises [NameError], and the status is never set (it stays what it
    was): the error is not turned into a message.  The progress bar is
    stopped and the transcript is untouched. *)
Theorem generic_error_status_lost
    (nlp : string -> Doc) (w : oracle) (st : App) (msg : string) :
  w _ Microphone_enter = Raised (Exception msg) ->
  after_queue st = [] ->
  fst (run w (listen nlp) st) = Ok tt /\
  scheduled st (snd (run w (listen nlp) st)) =
    [start_progress; ephemeral_configure_error (List.length (cells st));
     stop_progress] /\
  ephemeral_status_label (gui (run_cycle nlp w st))
    = ephemeral_status_label (gui st) /\
  callback_errors (run_cycle nlp w st)
    = (callback_errors st ++ ["NameError"])%list /\
  progress_bar (gui (run_cycle nlp w st)) = false /\
  transcript_text (gui (run_cycle nlp w st)) = transcript_text (gui st).
Proof.
  intros Hmic Hq.
  assert (Hrun : run w (listen nlp) st =
    (Ok tt,
     with_cells (set_nth (List.length (cells st)) None
                   (cells st ++ [Some (Exception msg)]))
       (with_log (log st ++ [Ev Microphone_enter])
          (with_after_queue
             (after_queue st ++
                [start_progress;
                 ephemeral_configure_error (List.length (cells st));
                 stop_progress])
             st)))).
  { destruct st as [av vm lo g ce q th lg cbe unc].
    unfold listen, listen_body, capture, with_Microphone. run_steps.
    rewrite Hmic. run_steps. unfold listen_handler, except_as. run_steps.
    rewrite <- ?app_assoc; reflexivity. }
  unfold run_cycle, mainloop_drain. rewrite Hrun. cbn [fst snd].
  rewrite scheduled_after. split; [reflexivity|]. split; [reflexivity|].
  destruct st as [av vm lo [ps es pb pe tr kt tv] ce q th lg cbe unc].
  cbn in Hq. subst q. cbn. rewrite nth_set_nth_last. cbn. repeat split.
Qed.

(** The same cycle, step by step.  The thread hands the callback over and
    leaves the clause at its next step; the event loop runs the callback
    when it comes to it.  When it does so after the thread has left the
    clause, the status is lost; it shows only if the event loop runs the
    callback between these two steps of the thread. *)
Example status_lost_step_by_step :
  option_map
    (fun st => (idle st, ephemeral_status_label (gui st), callback_errors st))
    (steps ws_nlp
       ([press_listen_button (answers no_microphone)]
        ++ repeat (thread_next 0) 7
        ++ repeat (mainloop_next (answers no_microphone)) 3)
       quiescent)
  = Some (true, ("", ""), ["NameError"]) /\
  option_map
    (fun st => (idle st, ephemeral_status_label (gui st), callback_errors st))
    (steps ws_nlp
       ([press_listen_button (answers no_microphone)]
        ++ repeat (thread_next 0) 4
        ++ repeat (mainloop_next (answers no_microphone)) 2
        ++ repeat (thread_next 0) 3
        ++ repeat (mainloop_next (answers no_microphone)) 1)
       quiescent)
  = Some (true, ("Error: No Default Input Device Available", "red"), []).
Proof. split; vm_compute; reflexivity. Qed.

Lemma generic_error_status_lost_witness :
  ephemeral_status_label
    (gui (run_cycle ws_nlp (answers no_microphone)
                    (with_after_queue [] (initial true)))) = ("", "") /\
  callback_errors
    (run_cycle ws_nlp (answers no_microphone)
               (with_after_queue [] (initial true))) = ["NameError"].
Proof.
  destruct (generic_error_status_lost ws_nlp (answers no_microphone)
              (with_after_queue [] (initial true))
              "No Default Input Device Available" eq_refl eq_refl)
    as [_ [_ [H1 [H2 _]]]].
  split; [exact H1|exact H2].
Defined.

(** ** C9: offline recognition *)



(** ** C8 and C10: the phrase list of a cycle *)





(** ** C2: starting a cycle *)

Lemma cycles_spawn_listen (nlp : string -> Doc) (w : oracle) (st : App) :
  cycles (spawn (mkThread target_listen w (listen nlp)) st) =
  (cycles st ++ [mkThread target_listen w (listen nlp)])%list.
Proof. unfold cycles, spawn. cbn. now rewrite filter_app. Qed.

(** C2, as the specification states it, fails: the button starts a thread
    whatever is running, so a press during a cycle starts a second one. *)
Lemma second_press_starts_a_cycle : ~ start_cycle_is_guarded ws_nlp.
Proof.
  intros H.
  specialize (H (answers (fine_world "stop"))
                (spawn (mkThread target_listen (answers (fine_world "start"))
                                 (listen ws_nlp)) quiescent)
                _ eq_refl eq_refl).
  discriminate H.
Qed.

(** Two presses: both threads have opened the microphone and are recording,
    neither has left it. *)
Example two_cycles_overlap :
  option_map
    (fun st => (List.length (cycles st), count is_capture (log st),
                count (fun e => match e with
                                | Ev Microphone_exit => true
                                | _ => false
                                end) (log st)))
    (steps ws_nlp
       ([press_listen_button (answers (fine_world "start"));
         press_listen_button (answers (fine_world "stop"))]
        ++ repeat (thread_next 0) 5 ++ repeat (thread_next 1) 5)
       quiescent)
  = Some (2, 2, 0) /\
  option_map
    (fun st => (List.length (cycles st), count is_capture (log st),
                count is_recognize (log st)))
    (steps ws_nlp
       ([press_listen_button (answers (fine_world "start"));
         press_listen_button (answers (fine_world "stop"))]
        ++ repeat (thread_next 0) 5 ++ repeat (thread_next 1) 14
        ++ repeat (thread_next 0) 9)
       quiescent)
  = Some (0, 2, 2).
Proof. split; vm_compute; reflexivity. Qed.

(** C2, amended: pressing the button always starts a new thread that runs
    [listen], in every state, a cycle in progress or not: the press is never
    rejected, the cycles in progress are one more, and the other threads and
    the rest of the state are left as they were. *)
Theorem press_always_starts_a_cycle
    (nlp : string -> Doc) (w : oracle) (st : App) :
  step nlp (press_listen_button w) st
    = Some (spawn (mkThread target_listen w (listen nlp)) st) /\
  threads (spawn (mkThread target_listen w (listen nlp)) st)
    = (threads st ++ [mkThread target_listen w (listen nlp)])%list /\
  List.length (cycles (spawn (mkThread target_listen w (listen nlp)) st))
    = S (List.length (cycles st)) /\
  idle (spawn (mkThread target_listen w (listen nlp)) st) = false.
Proof.
  split; [reflexivity|]. split; [reflexivity|]. split.
  - rewrite cycles_spawn_listen, length_app. simpl. lia.
  - unfold idle. rewrite cycles_spawn_listen. now destruct (cycles st).
Qed.

(** A cycle in which the service cannot be reached, step by step: once the
    thread has ended and the event loop has run, no cycle is in progress,
    the status is "API unavailable" and the transcript is empty. *)
Example unavailable_back_to_idle :
  option_map
    (fun st => (idle st, ephemeral_status_label (gui st),
                transcript_text (gui st), progress_bar (gui st), uncaught st))
    (steps ws_nlp
       ([press_listen_button (answers no_network)]
        ++ repeat (thread_next 0) 11
        ++ repeat (mainloop_next (answers no_network)) 4)
       quiescent)
  = Some (true, ("API unavailable", "red"), "", false, []).
Proof. vm_compute. reflexivity. Qed.

(** ** C5: loading the model *)

(** C5, as the specification states it, fails: [load_vosk_model] has no
    guard, and a second call constructs the model again. *)
Lemma second_load_loads_again : ~ second_load_is_noop.
Proof.
  intros H.
  specialize (H (answers (fine_world "")) (answers (fine_world "")) quiescent).
  vm_compute in H. discriminate H.
Qed.

(** C5, amended: every call of [load_vosk_model] ends without an exception
    and, when Vosk is installed, makes one load attempt (none when it is
    not), whatever the calls before it: two calls make two attempts.  The
    globals only move forward: a call never resets [is_vosk_loaded] once it
    is true and never clears a stored model. *)
Theorem every_load_call_attempts (w : oracle) (st : App) :
  fst (run w load_vosk_model st) = Ok tt /\
  count is_load_attempt (called st (snd (run w load_vosk_model st)))
    = (if VoskModel_available st then 1 else 0) /\
  implb (is_vosk_loaded st) (is_vosk_loaded (snd (run w load_vosk_model st)))
    = true /\
  implb (negb (is_None (vosk_model st)))
        (negb (is_None (vosk_model (snd (run w load_vosk_model st))))) = true.
Proof.
  destruct st as [av vm lo g ce q th lg cbe unc].
  unfold load_vosk_model. run_steps. destruct av; run_steps.
  - destruct (w _ (VoskModel_new model_path)) as [m|e]; run_steps.
    + unfold called. cbn. rewrite skipn_length_app.
      repeat split; [now destruct lo|now destruct vm].
    + unfold except_as. run_steps.
      unfold called. cbn. rewrite skipn_length_app.
      repeat split; [now destruct lo|now destruct vm].
  - unfold called. cbn. rewrite skipn_length.
    repeat split; [now destruct lo|now destruct vm].
Qed.

(** The program schedules the load once, when it starts; the event loop
    runs it, the thread loads the model, and the status says so. *)
Example startup_loads_once :
  option_map
    (fun st => (is_vosk_loaded st, is_None (vosk_model st),
                persistent_status_label (gui st),
                count is_load_attempt (log st), after_queue st,
                List.length (threads st)))
    (steps ws_nlp
       ([mainloop_next (answers (fine_world ""))]
        ++ repeat (thread_next 0) 9
        ++ repeat (mainloop_next (answers (fine_world ""))) 4)
       (initial true))
  = Some (true, false, "Offline loaded | Online available", 1, [], 0).
Proof. vm_compute. reflexivity. Qed.

(** * Further properties *)

(** ** Splitting and stripping *)

Module SplitFacts.
Import Str.

Lemma split_from_join (sep : ascii) (s : string) :
  forall cur : string,
    join (String sep "") (split_from sep cur s) = cur ++ s /\
    split_from sep cur s <> [].
Proof.
  induction s as [|c s IH]; intros cur; simpl.
  - split; [now rewrite StrFacts.append_nil_r|discriminate].
  - destruct (Ascii.eqb_spec c sep) as [->|Hc].
    + split; [|discriminate].
      destruct (IH "") as [Hj Hne].
      unfold join in *. simpl.
      destruct (split_from sep "" s) as [|x l]; [congruence|].
      now rewrite Hj.
    + destruct (IH (cur ++ String c "")) as [Hj Hne].
      split; [|exact Hne]. rewrite Hj. now rewrite StrFacts.append_assoc.
Qed.

Lemma chars_app (a b : string) : chars (a ++ b) = (chars a ++ chars b)%list.
Proof.
  unfold chars. induction a as [|c a IH]; simpl; [reflexivity|now rewrite IH].
Qed.

Lemma split_from_pieces (sep : ascii) (s : string) :
  forall cur : string,
    ~ In sep (chars cur) ->
    Forall (fun p => ~ In sep (chars p)) (split_from sep cur s) /\
    List.length (split_from sep cur s)
      = S (List.length (filter (Ascii.eqb sep) (chars s))).
Proof.
  induction s as [|c s IH]; intros cur Hcur; simpl.
  - split; [now constructor|reflexivity].
  - rewrite (Ascii.eqb_sym sep c).
    destruct (Ascii.eqb_spec c sep) as [->|Hc].
    + destruct (IH "" (fun H => H)) as [Hf Hl].
      split; [now constructor|]. simpl. now rewrite Hl.
    + apply IH. rewrite chars_app, in_app_iff. simpl. intuition.
Qed.

Lemma rstrip_idempotent (s : string) : rstrip (rstrip s) = rstrip s.
Proof.
  induction s as [|c s IH]; [reflexivity|]. simpl.
  destruct (isspace c && negb (truthy (rstrip s))) eqn:E; [reflexivity|].
  simpl. now rewrite IH, E.
Qed.

Lemma lstrip_rstrip_lstrip (s : string) :
  lstrip (rstrip (lstrip s)) = rstrip (lstrip s).
Proof.
  destruct (StrFacts.lstrip_head s) as [->|[c [r [-> Hc]]]]; [reflexivity|].
  simpl. rewrite Hc. simpl. now rewrite Hc.
Qed.

Lemma strip_idempotent (s : string) : strip (strip s) = strip s.
Proof.
  unfold strip. now rewrite lstrip_rstrip_lstrip, rstrip_idempotent.
Qed.

End SplitFacts.

Lemma lstrip_chars (s : string) : incl (chars (Str.lstrip s)) (chars s).
Proof.
  unfold chars. induction s as [|c s IH]; simpl; [apply incl_refl|].
  destruct (Str.isspace c); [now apply incl_tl|apply incl_refl].
Qed.

Lemma rstrip_chars (s : string) : incl (chars (Str.rstrip s)) (chars s).
Proof.
  unfold chars. induction s as [|c s IH]; simpl; [apply incl_refl|].
  destruct (Str.isspace c && negb (Str.truthy (Str.rstrip s)));
    [intros x []|].
  simpl. intros x [<-|Hx]; [now left|right; now apply IH].
Qed.

Lemma strip_chars (s : string) : incl (chars (Str.strip s)) (chars s).
Proof.
  unfold Str.strip. eapply incl_tran; [apply rstrip_chars|apply lstrip_chars].
Qed.

(** X1: the phrase list [process_text] builds is never empty, and each of
    its phrases is stripped and contains no comma; when the entry is not
    blank there is one phrase per piece between commas (one more than there
    are commas), and joining the pieces with commas gives the entry back. *)
Theorem target_phrases_shape (user_input : string) :
  target_phrases_of user_input <> [] /\
  Forall (fun p => Str.strip p = p /\ ~ In ","%char (chars p))
         (target_phrases_of user_input) /\
  (if Str.truthy (Str.strip user_input)
   then List.length (target_phrases_of user_input)
        = S (List.length (filter (Ascii.eqb ","%char) (chars user_input)))
   else target_phrases_of user_input = ["safety reset"]) /\
  Str.join "," (Str.split ","%char user_input) = user_input.
Proof.
  destruct (SplitFacts.split_from_join ","%char user_input "") as [Hjoin Hne].
  destruct (SplitFacts.split_from_pieces ","%char user_input "" (fun H => H))
    as [Hpieces Hlen].
  unfold target_phrases_of, Str.split.
  destruct (Str.truthy (Str.strip user_input)).
  - split.
    { destruct (Str.split_from ","%char "" user_input); [congruence|discriminate]. }
    split.
    { apply Forall_forall. intros p Hp. apply in_map_iff in Hp.
      destruct Hp as [x [<- Hx]]. split; [apply SplitFacts.strip_idempotent|].
      intros Hc. apply strip_chars in Hc.
      rewrite Forall_forall in Hpieces. exact (Hpieces x Hx Hc). }
    split; [now rewrite length_map|exact Hjoin].
  - split; [discriminate|]. split.
    { constructor; [|constructor]. split; [reflexivity|].
      unfold chars. simpl. intros H.
      repeat (destruct H as [H|H]; [discriminate H|]). exact H. }
    split; [reflexivity|exact Hjoin].
Qed.

(** X2: white space around a phrase is irrelevant: stripping the phrases
    beforehand does not change what [extract_phrases] returns, so the
    stripping [process_text] does on the pieces of the entry changes
    nothing. *)
Theorem phrases_whitespace_irrelevant
    (nlp : string -> Doc) (T : string) (P : list string) :
  extract_phrases nlp T (map Str.strip P) = extract_phrases nlp T P.
Proof.
  unfold extract_phrases.
  replace (map (fun phrase => nlp (Str.strip phrase))
               (filter (fun phrase => Str.truthy (Str.strip phrase))
                       (map Str.strip P)))
    with (map (fun phrase => nlp (Str.strip phrase))
              (filter (fun phrase => Str.truthy (Str.strip phrase)) P));
    [reflexivity|].
  induction P as [|p P IH]; [reflexivity|].
  simpl. rewrite SplitFacts.strip_idempotent.
  destruct (Str.truthy (Str.strip p)); simpl;
    [rewrite SplitFacts.strip_idempotent; f_equal|]; exact IH.
Qed.

(** Two lists sorted by a strict order and with the same elements are the
    same list. *)
Lemma sorted_same_elements {A : Type} (R : A -> A -> Prop) :
  (forall a b, R a b -> R b a -> False) ->
  forall l1 l2 : list A,
    StronglySorted R l1 -> StronglySorted R l2 ->
    (forall x, In x l1 <-> In x l2) -> l1 = l2.
Proof.
  intros Hasym l1.
  induction l1 as [|a l1 IH]; intros l2 H1 H2 Hsame.
  - destruct l2 as [|b l2]; [reflexivity|].
    destruct (proj2 (Hsame b) (or_introl eq_refl)).
  - destruct l2 as [|b l2]; [destruct (proj1 (Hsame a) (or_introl eq_refl))|].
    inversion H1 as [|? ? H1' Ha]; subst.
    inversion H2 as [|? ? H2' Hb]; subst.
    rewrite Forall_forall in Ha, Hb.
    assert (Hab : a = b).
    { destruct (proj1 (Hsame a) (or_introl eq_refl)) as [E|Hin]; [now symmetry|].
      destruct (proj2 (Hsame b) (or_introl eq_refl)) as [E|Hin']; [exact E|].
      destruct (Hasym a b (Ha b Hin') (Hb a Hin)). }
    subst b. f_equal. apply IH; [assumption|assumption|].
    intros x. split; intros Hx.
    + destruct (proj1 (Hsame x) (or_intror Hx)) as [E|Hin]; [|exact Hin].
      subst x. destruct (Hasym a a (Ha a Hx) (Ha a Hx)).
    + destruct (proj2 (Hsame x) (or_intror Hx)) as [E|Hin]; [|exact Hin].
      subst x. destruct (Hasym a a (Hb a Hx) (Hb a Hx)).
Qed.

Lemma span_lt_asym (a b : nat * nat) : span_lt a b -> span_lt b a -> False.
Proof. unfold span_lt. lia. Qed.

(** X3: the order of the phrases and their repetitions are irrelevant: two
    phrase lists with the same phrases give the same matches, in the same
    order. *)
Theorem phrases_order_irrelevant
    (nlp : string -> Doc) (T : string) (P P' : list string) :
  (forall p, In p P <-> In p P') ->
  extract_phrases nlp T P = extract_phrases nlp T P'.
Proof.
  intros Hsame. rewrite !extract_phrases_spans. f_equal.
  apply (sorted_same_elements span_lt span_lt_asym);
    try apply find_matches_sorted.
  intros [start stop]. rewrite !match_spans_spec.
  split; intros [Hlen [p [Hp H]]]; (split; [exact Hlen|]); exists p;
    (split; [now apply Hsame|exact H]).
Qed.

Lemma phrases_order_irrelevant_witness :
  extract_phrases ws_nlp "start the start up now" ["start up"; "start"; "start up"]
  = extract_phrases ws_nlp "start the start up now" ["start"; "start up"].
Proof.
  apply phrases_order_irrelevant. intros p. simpl. tauto.
Defined.

(** X4: adding phrases only adds matches: every span matched with a phrase
    list is matched with a longer one, and so is its text. *)
Theorem more_phrases_more_matches
    (nlp : string -> Doc) (T : string) (P P' : list string) :
  incl P P' ->
  incl (match_spans nlp T P) (match_spans nlp T P') /\
  incl (extract_phrases nlp T P) (extract_phrases nlp T P').
Proof.
  intros Hincl.
  assert (Hspans : incl (match_spans nlp T P) (match_spans nlp T P')).
  { intros [start stop]. rewrite !match_spans_spec.
    intros [Hlen [p [Hp H]]]. split; [exact Hlen|]. exists p.
    split; [now apply Hincl|exact H]. }
  split; [exact Hspans|].
  rewrite !extract_phrases_spans. intros m Hm.
  apply in_map_iff in Hm. destruct Hm as [sp [<- Hsp]].
  apply in_map_iff. exists sp. split; [reflexivity|now apply Hspans].
Qed.

Lemma more_phrases_more_matches_witness :
  incl (extract_phrases ws_nlp "stop the data now" ["data"])
       (extract_phrases ws_nlp "stop the data now" ["stop"; "data"]).
Proof.
  apply (more_phrases_more_matches ws_nlp "stop the data now"
           ["data"] ["stop"; "data"]).
  intros p [<-|[]]. simpl. tauto.
Defined.

(** ** The paths of a cycle *)

(** The capture, whatever the world answers: it logs calls that are neither
    of the offline path nor to the online service, and hands over the
    "Listening..." status or nothing. *)
Lemma run_capture_shape (w : oracle) (st : App) :
  exists r (listening : bool) l,
    run w capture st =
      (r, with_log (log st ++ l)
            (with_after_queue
               (after_queue st ++ (if listening then [listening_status] else []))
               st)) /\
    Forall (fun e => is_offline_call e = false /\ is_online_call e = false) l /\
    (forall audio, r = Ok audio -> listening = true).
Proof.
  destruct st as [av vm lo g ce q th lg cbe unc].
  unfold capture, with_Microphone. run_steps.
  destruct (w _ Microphone_enter) as [[]|e] eqn:Hmic.
  2:{ exists (Raised e), false, [Ev Microphone_enter]. state_simpl.
      rewrite app_nil_r. now repeat constructor. }
  run_steps.
  destruct (w _ (adjust_for_ambient_noise (1 # 2))) as [[]|e] eqn:Hadj.
  2:{ run_steps. rewrite <- !app_assoc.
      destruct (w _ Microphone_exit) as [[]|e'];
        [exists (Raised e)|exists (Raised e')]; exists false; eexists;
        state_simpl; rewrite app_nil_r;
        (split; [reflexivity|]); now repeat constructor. }
  run_steps.
  destruct (w _ (Recognizer_listen (3 # 2) 15)) as [audio|e] eqn:Hlis.
  2:{ run_steps. rewrite <- !app_assoc.
      destruct (w _ Microphone_exit) as [[]|e'];
        [exists (Raised e)|exists (Raised e')]; exists true; eexists;
        state_simpl; (split; [reflexivity|]); now repeat constructor. }
  run_steps. rewrite <- !app_assoc.
  destruct (w _ Microphone_exit) as [[]|e'];
    [exists (Ok audio)|exists (Raised e')]; exists true; eexists; state_simpl;
    (split; [reflexivity|]); now repeat constructor.
Qed.

(** The offline recognition, whatever the world answers: it hands nothing
    over and never calls the online service. *)
Lemma run_recognize_vosk_shape (w : oracle) (audio : AudioData) (st : App) :
  exists r l,
    run w (recognize_vosk audio) st = (r, with_log (log st ++ l) st) /\
    Forall (fun e => is_online_call e = false) l.
Proof.
  destruct st as [av vm lo g ce q th lg cbe unc].
  unfold recognize_vosk. run_steps.
  destruct (w _ (get_raw_data audio 16000 2)) as [raw|e].
  2:{ eexists _, [_]. state_simpl. split; [reflexivity|now repeat constructor]. }
  run_steps.
  destruct (w _ (KaldiRecognizer_new vm 16000)) as [rec|e].
  2:{ eexists _, [_; _]. state_simpl. rewrite <- !app_assoc.
      split; [reflexivity|now repeat constructor]. }
  run_steps.
  destruct (w _ (AcceptWaveform rec raw)) as [[|]|e].
  3:{ eexists _, [_; _; _]. state_simpl. rewrite <- !app_assoc.
      split; [reflexivity|now repeat constructor]. }
  - run_steps. destruct (w _ (Result rec)) as [js|e].
    2:{ eexists _, [_; _; _; _]. state_simpl. rewrite <- !app_assoc.
        split; [reflexivity|now repeat constructor]. }
    run_steps. destruct (w _ (json_loads js)) as [d|e]; run_steps;
      eexists _, [_; _; _; _; _]; rewrite <- !app_assoc;
      (split; [reflexivity|now repeat constructor]).
  - run_steps. destruct (w _ (FinalResult rec)) as [js|e].
    2:{ eexists _, [_; _; _; _]. state_simpl. rewrite <- !app_assoc.
        split; [reflexivity|now repeat constructor]. }
    run_steps. destruct (w _ (json_loads js)) as [d|e]; run_steps;
      eexists _, [_; _; _; _; _]; rewrite <- !app_assoc;
      (split; [reflexivity|now repeat constructor]).
Qed.

(** The body of the [try], whatever the world answers: either it returns
    after handing over a transcript line, the success status and a key
    phrase line, or after the "not loaded" status, or it raises after
    "Listening..." or before. *)
Lemma listen_body_paths (nlp : string -> Doc) (w : oracle) (st : App) :
  exists r q l,
    run w (listen_body nlp) st =
      (r, with_log (log st ++ l) (with_after_queue (after_queue st ++ q) st)) /\
    match r with
    | Ok _ =>
        (exists txt,
            q = [start_progress; listening_status;
                 transcript_insert (txt ++ Str.newline); success_status;
                 key_phrase_line nlp txt (phrase_entry (gui st))]) \/
        (q = [start_progress; listening_status;
              ephemeral_configure "Offline model not loaded yet" "red"] /\
         toggle_var (gui st) = true /\
         (is_vosk_loaded st = false \/ vosk_model st = None))
    | Raised _ =>
        exists listening : bool,
          q = start_progress :: (if listening then [listening_status] else [])
    end /\
    (toggle_var (gui st) = false ->
     Forall (fun e => is_offline_call e = false) l) /\
    (toggle_var (gui st) = true ->
     Forall (fun e => is_online_call e = false) l).
Proof.
  destruct st as [av vm lo [ps es pb pe tr kt tv] ce q th lg cbe unc].
  unfold listen_body. run_steps.
  match goal with
  | |- context [run w capture ?s] =>
      destruct (run_capture_shape w s) as (r & li & lc & Hrun & Hlc & Hli)
  end.
  rewrite Hrun. state_simpl.
  assert (Hoff : Forall (fun e => is_offline_call e = false) lc)
    by (revert Hlc; apply Forall_impl; tauto).
  assert (Hon : Forall (fun e => is_online_call e = false) lc)
    by (revert Hlc; apply Forall_impl; tauto).
  destruct r as [audio|e].
  2:{ exists (Raised e), (start_progress ::
                          (if li then [listening_status] else []))%list, lc.
      rewrite <- !app_assoc. split; [reflexivity|].
      split; [now exists li|]. now split. }
  rewrite (Hli audio eq_refl). run_steps. destruct tv.
  - (* offline *)
    unfold model_not_loaded. run_steps.
    destruct lo; [destruct vm as [m|]|]; run_steps.
    + match goal with
      | |- context [run w (recognize_vosk audio) ?s] =>
          destruct (run_recognize_vosk_shape w audio s) as (r & lv & Hv & Hlv)
      end.
      rewrite Hv. state_simpl. destruct r as [txt|e]; run_steps.
      * rewrite run_process_text. state_simpl.
        exists (Ok tt),
          [start_progress; listening_status;
           transcript_insert (txt ++ Str.newline); success_status;
           key_phrase_line nlp txt pe], (lc ++ lv)%list.
        rewrite <- !app_assoc. split; [reflexivity|].
        split; [left; now exists txt|].
        split; [discriminate|]. intros _. now apply Forall_app.
      * exists (Raised e), [start_progress; listening_status], (lc ++ lv)%list.
        rewrite <- !app_assoc. split; [reflexivity|].
        split; [now exists true|].
        split; [discriminate|]. intros _. now apply Forall_app.
    + exists (Ok tt),
        [start_progress; listening_status;
         ephemeral_configure "Offline model not loaded yet" "red"], lc.
      rewrite <- !app_assoc. split; [reflexivity|].
      split; [right; repeat split; now right|].
      split; [discriminate|]. now intros _.
    + exists (Ok tt),
        [start_progress; listening_status;
         ephemeral_configure "Offline model not loaded yet" "red"], lc.
      rewrite <- !app_assoc. split; [reflexivity|].
      split; [right; repeat split; now left|].
      split; [discriminate|]. now intros _.
  - (* online *)
    run_steps.
    destruct (w _ (recognize_google audio)) as [txt|e]; run_steps.
    + rewrite run_process_text. state_simpl.
      exists (Ok tt),
        [start_progress; listening_status;
         transcript_insert (txt ++ Str.newline); success_status;
         key_phrase_line nlp txt pe],
        (lc ++ [Ev (recognize_google audio)])%list.
      rewrite <- !app_assoc. split; [reflexivity|].
      split; [left; now exists txt|].
      split; [|discriminate]. intros _. apply Forall_app.
      split; [exact Hoff|now repeat constructor].
    + exists (Raised e), [start_progress; listening_status],
        (lc ++ [Ev (recognize_google audio)])%list.
      rewrite <- !app_assoc. split; [reflexivity|].
      split; [now exists true|].
      split; [|discriminate]. intros _. apply Forall_app.
      split; [exact Hoff|now repeat constructor].
Qed.

(** Every path of [listen]: it ends without an exception, and hands over
    either the callbacks of a success or those of a failure. *)
Lemma listen_paths (nlp : string -> Doc) (w : oracle) (st : App) :
  exists q l cs,
    run w (listen nlp) st =
      (Ok tt,
       with_cells cs
         (with_log (log st ++ l)
            (with_after_queue (after_queue st ++ q) st))) /\
    ((exists txt, q = success_callbacks nlp (phrase_entry (gui st)) txt) \/
     (exists listening err,
         q = failure_callbacks listening err /\
         is_error_status err = true /\ is_insert err = false)) /\
    (toggle_var (gui st) = false ->
     Forall (fun e => is_offline_call e = false) l) /\
    (toggle_var (gui st) = true ->
     Forall (fun e => is_online_call e = false) l).
Proof.
  destruct (listen_body_paths nlp w st) as (r & q & l & Hbody & Hshape & Hoff & Hon).
  destruct st as [av vm lo [ps es pb pe tr kt tv] ce q0 th lg cbe unc].
  unfold listen. rewrite run_try_finally, run_try_except, Hbody.
  state_simpl. cbn [gui phrase_entry toggle_var] in *.
  destruct r as [[]|e].
  - run_steps. destruct Hshape as [[txt ->]|[-> _]].
    + exists (success_callbacks nlp pe txt), l, ce.
      rewrite <- !app_assoc. split; [reflexivity|].
      split; [left; now exists txt|]. now split.
    + exists (failure_callbacks true
                (ephemeral_configure "Offline model not loaded yet" "red")),
             l, ce.
      rewrite <- !app_assoc. split; [reflexivity|].
      split; [right; now eexists _, _|]. now split.
  - destruct Hshape as [li ->].
    match goal with
    | |- context [run w (listen_handler e) ?s] =>
        destruct (run_listen_handler w e s) as (cb & cs & Hh & Hcb & Hcbi)
    end.
    rewrite Hh. run_steps.
    exists (failure_callbacks li cb), l, cs.
    unfold failure_callbacks. cbn [app]. rewrite <- !app_assoc.
    split; [reflexivity|].
    split; [right; now exists li, cb|]. now split.
Qed.

(** ** What every cycle does *)

(** X5: key phrases are reported only for a transcribed cycle.  Whatever the
    world answers, a cycle hands over at most one transcript line and at
    most one key phrase line; when it hands over a key phrase line, what it
    hands over is, in this order, the progress start, "Listening...", the
    transcript line, the success status, the key phrase line of that
    transcript and the progress stop, and no error status. *)
Theorem key_phrases_follow_the_transcript
    (nlp : string -> Doc) (w : oracle) (st : App) :
  count is_transcript_insert (scheduled st (snd (run w (listen nlp) st))) <= 1 /\
  count is_key_phrase_insert (scheduled st (snd (run w (listen nlp) st))) <= 1 /\
  (count is_key_phrase_insert (scheduled st (snd (run w (listen nlp) st))) = 1 ->
   count is_error_status (scheduled st (snd (run w (listen nlp) st))) = 0 /\
   exists txt,
     scheduled st (snd (run w (listen nlp) st))
     = success_callbacks nlp (phrase_entry (gui st)) txt).
Proof.
  destruct (listen_paths nlp w st) as (q & l & cs & Hrun & Hshape & _).
  rewrite Hrun. cbn [snd]. rewrite scheduled_after.
  destruct Hshape as [[txt ->]|[li [err [-> [He Hi]]]]].
  - assert (Hline : exists s, key_phrase_line nlp txt (phrase_entry (gui st))
                              = key_phrase_insert s).
    { unfold key_phrase_line.
      destruct (extract_phrases nlp txt (target_phrases_of (phrase_entry (gui st))));
        eexists; reflexivity. }
    destruct Hline as [s Hs].
    assert (Hcounts :
              count is_transcript_insert
                (success_callbacks nlp (phrase_entry (gui st)) txt) = 1 /\
              count is_key_phrase_insert
                (success_callbacks nlp (phrase_entry (gui st)) txt) = 1 /\
              count is_error_status
                (success_callbacks nlp (phrase_entry (gui st)) txt) = 0).
    { unfold success_callbacks, count. rewrite Hs. repeat split. }
    destruct Hcounts as (-> & -> & ->).
    split; [lia|]. split; [lia|]. intros _. split; [reflexivity|].
    now exists txt.
  - assert (Hcounts :
              count is_transcript_insert (failure_callbacks li err) = 0 /\
              count is_key_phrase_insert (failure_callbacks li err) = 0).
    { unfold failure_callbacks, count.
      destruct err; try discriminate Hi; destruct li; split; reflexivity. }
    destruct Hcounts as (-> & ->).
    split; [lia|]. split; [lia|]. intros H. discriminate H.
Qed.

(** X6: the two modes are separate, whatever the world answers: with the
    switch on online the cycle makes no call of the offline path (no
    conversion, no decoder, no reading of its result), and with the switch
    on offline it never calls the online service. *)
Theorem modes_are_separate (nlp : string -> Doc) (w : oracle) (st : App) :
  count (if toggle_var (gui st) then is_online_call else is_offline_call)
        (called st (snd (run w (listen nlp) st))) = 0.
Proof.
  destruct (listen_paths nlp w st) as (q & l & cs & Hrun & _ & Hoff & Hon).
  rewrite Hrun. cbn [snd]. rewrite called_after.
  destruct (toggle_var (gui st)); apply count_zero; auto.
Qed.

Lemma drain_ends_with_stop (nlp : string -> Doc) (w : oracle)
      (q : list callback) (st : App) :
  progress_bar
    (gui (fold_left (fun s cb => run_callback nlp w cb s)
                    (q ++ [stop_progress]) st)) = false.
Proof. rewrite fold_left_app. reflexivity. Qed.

(** X7: whatever the world answers and whatever is pending, the first
    callback a cycle hands over starts the progress bar and the last one
    stops it; once the event loop has run them the progress bar is
    stopped. *)
Theorem progress_bar_is_stopped (nlp : string -> Doc) (w : oracle) (st : App) :
  hd_error (scheduled st (snd (run w (listen nlp) st))) = Some start_progress /\
  last (scheduled st (snd (run w (listen nlp) st))) start_progress
    = stop_progress /\
  progress_bar (gui (run_cycle nlp w st)) = false.
Proof.
  destruct (listen_paths nlp w st) as (q & l & cs & Hrun & Hshape & _).
  unfold run_cycle, mainloop_drain. rewrite Hrun. cbn [snd].
  rewrite scheduled_after.
  assert (Hq : hd_error q = Some start_progress /\
               exists q', q = (q' ++ [stop_progress])%list).
  { destruct Hshape as [[txt ->]|[li [err [-> _]]]].
    - split; [reflexivity|]. now eexists [_; _; _; _; _].
    - split; [reflexivity|]. destruct li; [now eexists [_; _; _]|now eexists [_; _]]. }
  destruct Hq as [Hhd [q' ->]].
  split; [exact Hhd|]. split; [apply last_last|].
  cbn [after_queue with_cells with_log with_after_queue].
  rewrite app_assoc. apply drain_ends_with_stop.
Qed.

(** ** Particular cycles *)





(** X10: speech that is not understood.  With the switch on online, when
    the capture succeeds and the service raises [UnknownValueError]: the
    cycle hands over the red status "Could not understand audio" and no
    line; once the event loop has run (nothing else pending) the status
    shows, the transcript and the key phrases are what they were and the
    progress bar is stopped. *)
Theorem speech_not_understood
    (nlp : string -> Doc) (w : oracle) (st : App) (audio : AudioData) :
  toggle_var (gui st) = false ->
  captures w audio ->
  w _ (recognize_google audio) = Raised UnknownValueError ->
  after_queue st = [] ->
  scheduled st (snd (run w (listen nlp) st)) =
    failure_callbacks true
      (ephemeral_configure "Could not understand audio" "red") /\
  gui (run_cycle nlp w st) =
    with_ephemeral ("Could not understand audio", "red")
      (with_progress false (gui st)) /\
  callback_errors (run_cycle nlp w st) = callback_errors st.
Proof.
  intros Htoggle Hcap Hgoogle Hq.
  assert (Hrun : run w (listen nlp) st =
    (Ok tt,
     with_cells (cells st)
       (with_log (log st ++ [Ev Microphone_enter;
                             Ev (adjust_for_ambient_noise (1 # 2));
                             Ev (Recognizer_listen (3 # 2) 15);
                             Ev Microphone_exit;
                             Ev (recognize_google audio)])
          (with_after_queue
             (after_queue st ++
                failure_callbacks true
                  (ephemeral_configure "Could not understand audio" "red"))
             st)))).
  { destruct st as [av vm lo [ps es pb pe tr kt tv] ce q th lg cbe unc].
    cbn in Htoggle. subst tv.
    unfold listen, listen_body. run_steps.
    rewrite (run_capture w _ audio Hcap). run_steps.
    rewrite Hgoogle. run_steps. unfold listen_handler. run_steps.
    rewrite <- ?app_assoc; reflexivity. }
  unfold run_cycle, mainloop_drain. rewrite Hrun. cbn [snd].
  rewrite scheduled_after. split; [reflexivity|].
  destruct st as [av vm lo [ps es pb pe tr kt tv] ce q th lg cbe unc].
  cbn in Hq. subst q. cbn. split; reflexivity.
Qed.

Lemma speech_not_understood_witness :
  ephemeral_status_label
    (gui (run_cycle ws_nlp
            (answers (mkWorld (Ok tt) (Ok tt) (Ok tt) (Ok silence) (Ok [])
                        (Raised UnknownValueError)
                        (Ok (mkVoskModel 1)) (Ok (mkKaldi 1)) (Ok true)
                        (Ok "{}") (Ok "{}") (fun _ => Ok [])))
            quiescent))
  = ("Could not understand audio", "red").
Proof.
  destruct (speech_not_understood ws_nlp
              (answers (mkWorld (Ok tt) (Ok tt) (Ok tt) (Ok silence) (Ok [])
                          (Raised UnknownValueError)
                          (Ok (mkVoskModel 1)) (Ok (mkKaldi 1)) (Ok true)
                          (Ok "{}") (Ok "{}") (fun _ => Ok [])))
              quiescent silence eq_refl
              (conj eq_refl (conj eq_refl (conj eq_refl eq_refl)))
              eq_refl eq_refl) as [_ [Hgui _]].
  rewrite Hgui. reflexivity.
Defined.

(** X11: the service cannot be reached.  With the switch on online, when
    the capture succeeds and the service raises [RequestError]: the cycle
    ends without an exception and hands over the red status
    "API unavailable" and no line; once the event loop has run (nothing else
    pending) the status shows, the transcript and the key phrases are what
    they were and the progress bar is stopped. *)
Theorem service_cannot_be_reached
    (nlp : string -> Doc) (w : oracle) (st : App) (audio : AudioData)
    (msg : string) :
  toggle_var (gui st) = false ->
  captures w audio ->
  w _ (recognize_google audio) = Raised (RequestError msg) ->
  after_queue st = [] ->
  fst (run w (listen nlp) st) = Ok tt /\
  scheduled st (snd (run w (listen nlp) st)) =
    failure_callbacks true (ephemeral_configure "API unavailable" "red") /\
  gui (run_cycle nlp w st) =
    with_ephemeral ("API unavailable", "red") (with_progress false (gui st)) /\
  callback_errors (run_cycle nlp w st) = callback_errors st.
Proof.
  intros Htoggle Hcap Hgoogle Hq.
  destruct (service_unavailable nlp w st audio msg Htoggle Hcap Hgoogle)
    as (Hok & Hsched & Hgui).
  destruct (Hgui Hq) as (Htr & Hkp & Hes & Hpb & Hcbe).
  split; [exact Hok|]. split; [exact Hsched|]. split; [|exact Hcbe].
  pose proof (run_frame w (listen nlp) st) as Hframe.
  revert Htr Hkp Hes Hpb.
  unfold run_cycle, mainloop_drain.
  assert (Hrun : after_queue (snd (run w (listen nlp) st)) =
                 failure_callbacks true
                   (ephemeral_configure "API unavailable" "red")).
  { rewrite run_after_queue, Hq, Hsched. reflexivity. }
  rewrite Hrun. destruct Hframe as [Hg _].
  destruct (snd (run w (listen nlp) st))
    as [av vm lo g ce q th lg cbe unc].
  cbn in Hg. subst g. destruct (gui st). cbn. intros. reflexivity.
Qed.

Lemma service_cannot_be_reached_witness :
  ephemeral_status_label (gui (run_cycle ws_nlp (answers no_network) quiescent))
  = ("API unavailable", "red") /\
  transcript_text (gui (run_cycle ws_nlp (answers no_network) quiescent)) = "".
Proof.
  destruct (service_cannot_be_reached ws_nlp (answers no_network) quiescent
              silence "recognition connection failed" eq_refl
              (conj eq_refl (conj eq_refl (conj eq_refl eq_refl)))
              eq_refl eq_refl) as [_ [_ [Hgui _]]].
  rewrite Hgui. split; reflexivity.
Defined.

(** ** The loader *)

(** X12: the model loads.  When Vosk is installed and the construction of
    the model succeeds, [load_vosk_model] makes that one library call,
    stores the model and then sets the flag; once the event loop has run
    (nothing else pending) the persistent status is
    "Offline loaded | Online available", the progress bar is stopped and the
    other widgets are what they were. *)
Theorem model_loads
    (nlp : string -> Doc) (w : oracle) (st : App) (m : VoskModel) :
  VoskModel_available st = true ->
  w _ (VoskModel_new model_path) = Ok m ->
  after_queue st = [] ->
  fst (run w load_vosk_model st) = Ok tt /\
  called st (snd (run w load_vosk_model st)) = [Ev (VoskModel_new model_path)] /\
  scheduled st (snd (run w load_vosk_model st)) = load_success_callbacks /\
  vosk_model (run_loader nlp w st) = Some m /\
  is_vosk_loaded (run_loader nlp w st) = true /\
  gui (run_loader nlp w st) =
    with_persistent "Offline loaded | Online available"
      (with_progress false (gui st)) /\
  callback_errors (run_loader nlp w st) = callback_errors st.
Proof.
  intros Hav Hnew Hq.
  destruct st as [av vm lo [ps es pb pe tr kt tv] ce q th lg cbe unc].
  cbn in Hav, Hq. subst av q.
  unfold run_loader, mainloop_drain, load_vosk_model. run_steps.
  rewrite Hnew. run_steps.
  unfold called, scheduled. cbn. rewrite skipn_length_app.
  repeat split.
Qed.

Lemma model_loads_witness :
  persistent_status_label
    (gui (run_loader ws_nlp (answers (fine_world "")) quiescent))
  = "Offline loaded | Online available" /\
  is_vosk_loaded (run_loader ws_nlp (answers (fine_world "")) quiescent) = true.
Proof.
  destruct (model_loads ws_nlp (answers (fine_world "")) quiescent
              (mkVoskModel 1) eq_refl eq_refl eq_refl)
    as [_ [_ [_ [_ [Hl [Hg _]]]]]].
  rewrite Hg. split; [reflexivity|exact Hl].
Defined.

(** X13: Vosk is not installed.  [load_vosk_model] then makes no library
    call, leaves the globals as they are and hands over one callback; once
    the event loop has run (nothing else pending) the persistent status is
    "Vosk not installed." and nothing else has changed: the progress bar is
    not touched. *)
Theorem vosk_not_installed (nlp : string -> Doc) (w : oracle) (st : App) :
  VoskModel_available st = false ->
  after_queue st = [] ->
  fst (run w load_vosk_model st) = Ok tt /\
  called st (snd (run w load_vosk_model st)) = [] /\
  scheduled st (snd (run w load_vosk_model st))
    = [persistent_configure "Vosk not installed."] /\
  vosk_model (run_loader nlp w st) = vosk_model st /\
  is_vosk_loaded (run_loader nlp w st) = is_vosk_loaded st /\
  gui (run_loader nlp w st) = with_persistent "Vosk not installed." (gui st).
Proof.
  intros Hav Hq.
  destruct st as [av vm lo [ps es pb pe tr kt tv] ce q th lg cbe unc].
  cbn in Hav, Hq. subst av q.
  unfold run_loader, mainloop_drain, load_vosk_model. run_steps.
  unfold called, scheduled. cbn. rewrite skipn_length.
  repeat split.
Qed.

Lemma vosk_not_installed_witness :
  persistent_status_label
    (gui (run_loader ws_nlp (answers (fine_world ""))
                     (with_after_queue [] (initial false))))
  = "Vosk not installed.".
Proof.
  destruct (vosk_not_installed ws_nlp (answers (fine_world ""))
              (with_after_queue [] (initial false)) eq_refl eq_refl)
    as [_ [_ [_ [_ [_ Hg]]]]].
  rewrite Hg. reflexivity.
Defined.

(** X14: the model fails to load.  When Vosk is installed and the
    construction of the model raises, whatever the exception,
    [load_vosk_model] catches it: it returns normally, leaves the globals as
    they are (offline mode stays unavailable) and, after the callbacks of
    the start, hands over the progress stop and one status callback; once
    the event loop has run, the progress bar is stopped and the transcript
    is what it was. *)
Theorem model_fails_to_load
    (nlp : string -> Doc) (w : oracle) (st : App) (e : exn) :
  VoskModel_available st = true ->
  w _ (VoskModel_new model_path) = Raised e ->
  after_queue st = [] ->
  fst (run w load_vosk_model st) = Ok tt /\
  called st (snd (run w load_vosk_model st)) = [Ev (VoskModel_new model_path)] /\
  scheduled st (snd (run w load_vosk_model st))
    = load_failure_callbacks (List.length (cells st)) /\
  vosk_model (run_loader nlp w st) = vosk_model st /\
  is_vosk_loaded (run_loader nlp w st) = is_vosk_loaded st /\
  progress_bar (gui (run_loader nlp w st)) = false /\
  transcript_text (gui (run_loader nlp w st)) = transcript_text (gui st).
Proof.
  intros Hav Hnew Hq.
  destruct st as [av vm lo [ps es pb pe tr kt tv] ce q th lg cbe unc].
  cbn in Hav, Hq. subst av q.
  unfold run_loader, mainloop_drain, load_vosk_model. run_steps.
  rewrite Hnew. run_steps. unfold except_as. run_steps.
  unfold called, scheduled. cbn. rewrite skipn_length_app, nth_set_nth_last.
  repeat split.
Qed.

Lemma model_fails_to_load_witness :
  is_vosk_loaded
    (run_loader ws_nlp
       (answers (mkWorld (Ok tt) (Ok tt) (Ok tt) (Ok silence) (Ok []) (Ok "")
                   (Raised (Exception "Failed to create a model"))
                   (Ok (mkKaldi 1)) (Ok true) (Ok "{}") (Ok "{}")
                   (fun _ => Ok [])))
       quiescent) = false.
Proof.
  destruct (model_fails_to_load ws_nlp
              (answers (mkWorld (Ok tt) (Ok tt) (Ok tt) (Ok silence) (Ok [])
                          (Ok "")
                          (Raised (Exception "Failed to create a model"))
                          (Ok (mkKaldi 1)) (Ok true) (Ok "{}") (Ok "{}")
                          (fun _ => Ok [])))
              quiescent (Exception "Failed to create a model")
              eq_refl eq_refl eq_refl) as [_ [_ [_ [_ [Hl _]]]]].
  exact Hl.
Defined.

(** Executions followed action by action, the state kept as a record. *)
Lemma steps_step (nlp : string -> Doc) (a : action) (l : list action)
      (st st' : App) :
  step nlp a st = Some st' -> steps nlp (a :: l) st = steps nlp l st'.
Proof. intros H. cbn [steps]. now rewrite H. Qed.

Ltac flat_state :=
  unfold with_vosk_model, with_is_vosk_loaded, with_gui, with_cells,
         with_after_queue, with_threads, with_log, with_callback_errors,
         with_uncaught, with_persistent, with_ephemeral, with_progress,
         with_phrase_entry, with_transcript, with_key_phrase, with_toggle;
  cbn [VoskModel_available vosk_model is_vosk_loaded gui cells after_queue
       threads log callback_errors uncaught
       persistent_status_label ephemeral_status_label progress_bar
       phrase_entry transcript_text key_phrase_text toggle_var].

Ltac one_step tac :=
  match goal with
  | |- context [steps ?n (?a :: ?l) ?s] =>
      let E := fresh "E" in
      eassert (E : step n a s = Some _) by (cbn; tac; flat_state; reflexivity);
      rewrite (steps_step n a l s _ E); clear E
  end.

(** X15: whether the message of a failed load is shown depends on the
    schedule.  The status callback of the [except] clause reads [e] when the
    event loop runs it.  With nothing else running or pending, from the
    moment the loader thread is started: if the thread runs to its end
    before the event loop runs the callbacks, [e] is unbound by then, the
    callback raises [NameError] and the persistent status stays
    "Loading offline voice recognition model..."; if the event loop runs the
    callbacks once the thread has handed them over and before the thread
    leaves the clause, the status is the message of the error. *)
Theorem load_error_message_depends_on_schedule
    (nlp : string -> Doc) (w w' : oracle) (st : App) (e : exn) :
  VoskModel_available st = true ->
  w _ (VoskModel_new model_path) = Raised e ->
  after_queue st = [] ->
  threads st = [] ->
  (exists st1,
      steps nlp (repeat (thread_next 0) 9 ++ repeat (mainloop_next w') 4)%list
            (run_callback nlp w load_model_in_thread st) = Some st1 /\
      threads st1 = [] /\ after_queue st1 = [] /\
      persistent_status_label (gui st1)
        = "Loading offline voice recognition model..." /\
      callback_errors st1 = (callback_errors st ++ ["NameError"])%list) /\
  (exists st2,
      steps nlp (repeat (thread_next 0) 7 ++ repeat (mainloop_next w') 4
                 ++ repeat (thread_next 0) 2)%list
            (run_callback nlp w load_model_in_thread st) = Some st2 /\
      threads st2 = [] /\ after_queue st2 = [] /\
      persistent_status_label (gui st2)
        = "Error loading offline model: " ++ exn_str e /\
      callback_errors st2 = callback_errors st).
Proof.
  intros Hav Hnew Hq Hth.
  destruct st as [av vm lo [ps es pb pe tr kt tv] ce q th lg cbe unc].
  cbn in Hav, Hq, Hth. subst av q th.
  cbn [repeat app run_callback spawn threads]. flat_state. split.
  - do 3 one_step idtac. one_step ltac:(rewrite Hnew; cbn).
    do 8 one_step idtac. one_step ltac:(rewrite nth_set_nth_last).
    cbn [steps]. eexists. split; [reflexivity|]. cbn. repeat split.
  - do 3 one_step idtac. one_step ltac:(rewrite Hnew; cbn).
    do 6 one_step idtac. one_step ltac:(rewrite nth_middle).
    do 2 one_step idtac.
    cbn [steps]. eexists. split; [reflexivity|]. cbn. repeat split.
Qed.

Lemma load_error_message_depends_on_schedule_witness :
  option_map (fun st => (persistent_status_label (gui st), callback_errors st))
    (steps ws_nlp
       (repeat (thread_next 0) 9
        ++ repeat (mainloop_next (answers (fine_world ""))) 4)
       (run_callback ws_nlp
          (answers (mkWorld (Ok tt) (Ok tt) (Ok tt) (Ok silence) (Ok [])
                      (Ok "")
                      (Raised (Exception "Failed to create a model"))
                      (Ok (mkKaldi 1)) (Ok true) (Ok "{}") (Ok "{}")
                      (fun _ => Ok [])))
          load_model_in_thread quiescent))
  = Some ("Loading offline voice recognition model...", ["NameError"]) /\
  option_map (fun st => (persistent_status_label (gui st), callback_errors st))
    (steps ws_nlp
       (repeat (thread_next 0) 7
        ++ repeat (mainloop_next (answers (fine_world ""))) 4
        ++ repeat (thread_next 0) 2)
       (run_callback ws_nlp
          (answers (mkWorld (Ok tt) (Ok tt) (Ok tt) (Ok silence) (Ok [])
                      (Ok "")
                      (Raised (Exception "Failed to create a model"))
                      (Ok (mkKaldi 1)) (Ok true) (Ok "{}") (Ok "{}")
                      (fun _ => Ok [])))
          load_model_in_thread quiescent))
  = Some ("Error loading offline model: Failed to create a model", []).
Proof.
  destruct (load_error_message_depends_on_schedule ws_nlp
              (answers (mkWorld (Ok tt) (Ok tt) (Ok tt) (Ok silence) (Ok [])
                          (Ok "")
                          (Raised (Exception "Failed to create a model"))
                          (Ok (mkKaldi 1)) (Ok true) (Ok "{}") (Ok "{}")
                          (fun _ => Ok [])))
              (answers (fine_world "")) quiescent
              (Exception "Failed to create a model")
              eq_refl eq_refl eq_refl eq_refl)
    as [(st1 & H1 & _ & _ & Hl1 & He1) (st2 & H2 & _ & _ & Hl2 & He2)].
  split.
  - rewrite H1. cbn [option_map]. now rewrite Hl1, He1.
  - rewrite H2. cbn [option_map]. now rewrite Hl2, He2.
Defined.

(** ** Offline cycles *)









(** ** Every execution *)

(** One action other than an edit of the two boxes only adds to the
    transcript and to the key phrases. *)
Lemma step_appends (nlp : string -> Doc) (a : action) (st st' : App) :
  is_edit a = false ->
  step nlp a st = Some st' ->
  exists t k,
    transcript_text (gui st') = transcript_text (gui st) ++ t /\
    key_phrase_text (gui st') = key_phrase_text (gui st) ++ k.
Proof.
  intros Hedit.
  destruct a as [w|b|s|s|s|w|i]; cbn [step]; try discriminate Hedit.
  - intros H. inversion H; subst. exists "", "".
    now rewrite !StrFacts.append_nil_r.
  - intros H. inversion H; subst. exists "", "".
    now rewrite !StrFacts.append_nil_r.
  - intros H. inversion H; subst. exists "", "".
    now rewrite !StrFacts.append_nil_r.
  - destruct (after_queue st) as [|cb q]; [discriminate|].
    intros H. inversion H; subst. clear H.
    destruct cb; cbn;
      try (exists "", ""; now rewrite !StrFacts.append_nil_r).
    + destruct (nth e (cells st) None); cbn;
        exists "", ""; now rewrite !StrFacts.append_nil_r.
    + destruct (nth e (cells st) None); cbn;
        exists "", ""; now rewrite !StrFacts.append_nil_r.
    + exists s, "". now rewrite StrFacts.append_nil_r.
    + exists "", s. now rewrite StrFacts.append_nil_r.
  - destruct (nth_error (threads st) i) as [t|]; [|discriminate].
    destruct (code t) as [r|X c k].
    + intros H. inversion H; subst. exists "", "".
      rewrite !StrFacts.append_nil_r. now destruct r.
    + destruct (exec_frame (world t) c st) as [Hg _].
      destruct (exec (world t) c st) as [r st1]. cbn [snd] in Hg.
      intros H. inversion H; subst. cbn. rewrite Hg.
      exists "", "". now rewrite !StrFacts.append_nil_r.
Qed.

(** X18: the program only appends to the transcript and to the key phrases.
    In every execution in which the operator does not edit these two boxes
    (any presses of the button, flips of the switch and typing in the phrase
    entry, however the threads and the event loop are scheduled and whatever
    the libraries answer), their content after is their content before
    followed by what was added: text leaves them only by an edit of the
    operator. *)
Theorem sinks_are_append_only (nlp : string -> Doc) (l : list action) :
  Forall (fun a => is_edit a = false) l ->
  forall st st' : App,
    steps nlp l st = Some st' ->
    exists t k,
      transcript_text (gui st') = transcript_text (gui st) ++ t /\
      key_phrase_text (gui st') = key_phrase_text (gui st) ++ k.
Proof.
  induction 1 as [|a l Ha _ IH]; intros st st' H; cbn [steps] in H.
  - inversion H; subst. exists "", "". now rewrite !StrFacts.append_nil_r.
  - destruct (step nlp a st) as [st1|] eqn:Hstep; [|discriminate].
    destruct (step_appends nlp a st st1 Ha Hstep) as (t1 & k1 & Ht1 & Hk1).
    destruct (IH st1 st' H) as (t2 & k2 & Ht2 & Hk2).
    exists (t1 ++ t2), (k1 ++ k2).
    rewrite Ht2, Hk2, Ht1, Hk1. now rewrite !StrFacts.append_assoc.
Qed.

Lemma sinks_are_append_only_witness :
  match steps ws_nlp
          ([type_phrases "stop"; press_listen_button (answers (fine_world "stop"))]
           ++ repeat (thread_next 0) 14
           ++ repeat (mainloop_next (answers (fine_world ""))) 6)
          (with_gui (with_transcript "start" initial_gui) quiescent)
  with
  | Some st =>
      exists t k,
        transcript_text (gui st) = "start" ++ t /\
        key_phrase_text (gui st) = "" ++ k
  | None => False
  end.
Proof.
  destruct (steps ws_nlp
              ([type_phrases "stop";
                press_listen_button (answers (fine_world "stop"))]
               ++ repeat (thread_next 0) 14
               ++ repeat (mainloop_next (answers (fine_world ""))) 6)
              (with_gui (with_transcript "start" initial_gui) quiescent))
    as [st|] eqn:H.
  - refine (sinks_are_append_only ws_nlp _ _ _ st H).
    repeat constructor.
  - vm_compute in H. discriminate H.
Defined.

(** *** The flag and the model *)

Lemma flag_after_model_mono {A : Type} (p : prog A) :
  forall b b' : bool,
    flag_after_model b p -> flag_after_model (b || b') p.
Proof.
  induction p as [a|X c k IH]; intros b b' H; [exact I|].
  cbn [flag_after_model] in *. destruct H as [Hw Hk]. split.
  - destruct (written_flag c); [|exact I].
    destruct Hw as [-> ->]. now split.
  - intros r. replace (b || b' || writes_model c)
      with (b || writes_model c || b') by (now destruct b, b', (writes_model c)).
    apply IH, Hk.
Qed.

(** *** Programs that make only certain calls *)

Section Only.

Variable ok : forall X : Type, call X -> bool.

Lemma only_pbind {A B : Type} (p : prog A) (f : A -> prog B) :
  only ok p -> (forall a, only ok (f a)) -> only ok (pbind p f).
Proof.
  induction p as [a|X c k IH]; intros Hp Hf; cbn in *; [apply Hf|].
  destruct Hp as [Hc Hk]. split; [exact Hc|].
  intros r. apply IH; [apply Hk|exact Hf].
Qed.

Lemma only_ret {A : Type} (a : A) : only ok (ret a).
Proof. exact I. Qed.

Lemma only_perform {X : Type} (c : call X) :
  ok _ c = true -> only ok (perform c).
Proof. intros H. split; [exact H|]. intros r. exact I. Qed.

Lemma only_bind {A B : Type} (m : M A) (f : A -> M B) :
  only ok m -> (forall a, only ok (f a)) -> only ok (bind m f).
Proof.
  intros Hm Hf. apply only_pbind; [exact Hm|].
  intros [a|e]; [apply Hf|exact I].
Qed.

Lemma only_try_except {A : Type} (m : M A) (h : exn -> M A) :
  only ok m -> (forall e, only ok (h e)) -> only ok (try_except m h).
Proof.
  intros Hm Hh. apply only_pbind; [exact Hm|].
  intros [a|e]; [exact I|apply Hh].
Qed.

Lemma only_try_finally {A : Type} (m : M A) (fin : M unit) :
  only ok m -> only ok fin -> only ok (try_finally m fin).
Proof.
  intros Hm Hfin. apply only_pbind; [exact Hm|].
  intros r. apply only_pbind; [exact Hfin|]. intros r'. exact I.
Qed.

End Only.

(** Following the structure of a program. *)
Ltac only_step :=
  lazymatch goal with
  | |- only _ (ret _) => apply only_ret
  | |- only _ (perform _) => apply only_perform; reflexivity
  | |- only _ (after _) => apply only_perform; reflexivity
  | |- only _ (bind _ _) => apply only_bind; [|intro]
  | |- only _ (try_finally _ _) => apply only_try_finally
  | |- only _ (try_except _ _) => apply only_try_except; [|intro]
  | |- only _ (if ?b then _ else _) => destruct b
  | |- only _ (match ?x with _ => _ end) => destruct x
  end.

Ltac only_tac := repeat only_step.

Lemma only_process_text (ok : forall X : Type, call X -> bool)
      (nlp : string -> Doc) (txt : string) :
  ok _ phrase_entry_get = true ->
  (forall s, ok _ (app_after (key_phrase_insert s)) = true) ->
  only ok (process_text nlp txt).
Proof.
  intros Hget Hins. unfold process_text.
  apply only_bind; [now apply only_perform|]. intros user_input.
  destruct (extract_phrases nlp txt (target_phrases_of user_input));
    unfold after; apply only_perform; apply Hins.
Qed.

Lemma only_writes_no_global_listen (nlp : string -> Doc) :
  only writes_no_global (listen nlp).
Proof.
  unfold listen, listen_body, capture, with_Microphone, model_not_loaded,
    recognize_vosk, listen_handler, except_as.
  only_tac; apply only_process_text; reflexivity.
Qed.

Lemma only_flag_after_model {A : Type} (p : prog A) :
  only writes_no_global p -> forall b, flag_after_model b p.
Proof.
  induction p as [a|X c k IH]; intros H b; [exact I|].
  cbn in *. destruct H as [Hc Hk]. unfold writes_no_global in Hc.
  destruct (written_flag c); [discriminate|]. split; [exact I|].
  intros r. now apply IH.
Qed.

Lemma listen_flag (nlp : string -> Doc) (b : bool) :
  flag_after_model b (listen nlp).
Proof. apply only_flag_after_model, only_writes_no_global_listen. Qed.

Lemma flag_after_model_pbind {A B : Type} (p : prog A) (f : A -> prog B) :
  forall b,
    flag_after_model b p -> (forall a, flag_after_model b (f a)) ->
    flag_after_model b (pbind p f).
Proof.
  induction p as [a|X c k IH]; intros b Hp Hf; cbn in *; [apply Hf|].
  destruct Hp as [Hc Hk]. split; [exact Hc|].
  intros r. apply IH; [apply Hk|].
  intros a. now apply flag_after_model_mono.
Qed.

(** The loader stores the model, then sets the flag. *)
Lemma load_flag (b : bool) : flag_after_model b load_vosk_model.
Proof.
  assert (Hafter : forall b' cb, flag_after_model b' (after cb))
    by (intros; split; [exact I|intros; exact I]).
  unfold load_vosk_model, bind.
  apply flag_after_model_pbind; [split; [exact I|intros; exact I]|].
  intros [[|]|e]; [|apply Hafter|exact I].
  unfold try_except. apply flag_after_model_pbind.
  - unfold bind.
    apply flag_after_model_pbind; [apply Hafter|]. intros [_|e]; [|exact I].
    apply flag_after_model_pbind; [apply Hafter|]. intros [_|e]; [|exact I].
    apply flag_after_model_pbind; [split; [exact I|intros; exact I]|].
    intros [m|e]; [|exact I].
    (* the model is stored: from here on there is one *)
    cbn [pbind perform flag_after_model written_flag writes_model].
    split; [exact I|]. intros [_|e]; [|exact I].
    rewrite Bool.orb_true_r.
    cbn [pbind perform flag_after_model written_flag writes_model].
    split; [now split|]. intros [_|e]; [|exact I].
    apply flag_after_model_pbind; [apply Hafter|]. intros [_|e]; [|exact I].
    apply Hafter.
  - intros [a|e]; [exact I|].
    unfold except_as, bind, try_finally.
    apply flag_after_model_pbind; [split; [exact I|intros; exact I]|].
    intros [c|e']; [|exact I].
    apply flag_after_model_pbind.
    + apply flag_after_model_pbind; [apply Hafter|]. intros [_|e']; [|exact I].
      apply Hafter.
    + intros r. apply flag_after_model_pbind;
        [split; [exact I|intros; exact I]|]. intros r'. exact I.
Qed.

(** What one call does to the globals. *)
Lemma exec_globals {X : Type} (w : oracle) (c : call X) (st : App) :
  has_model (snd (exec w c st)) = has_model st || writes_model c /\
  is_vosk_loaded (snd (exec w c st))
    = match written_flag c with
      | Some b => b
      | None => is_vosk_loaded st
      end.
Proof.
  unfold has_model. destruct c; cbn; rewrite ?Bool.orb_false_r, ?Bool.orb_true_r;
    split; reflexivity.
Qed.

Lemma Forall_set_nth {A : Type} (P : A -> Prop) (l : list A) :
  forall (i : nat) (a : A),
    Forall P l -> P a -> Forall P (set_nth i a l).
Proof.
  induction l as [|x l IH]; intros i a Hl Ha; [destruct i; constructor|].
  inversion Hl; subst. destruct i; simpl; constructor; auto.
Qed.

Lemma In_firstn_incl {A : Type} (n : nat) (l : list A) (x : A) :
  In x (firstn n l) -> In x l.
Proof.
  revert n. induction l as [|a l IH]; intros [|n] H; simpl in *; try tauto.
  destruct H as [H|H]; [now left|right; eauto].
Qed.

Lemma In_skipn_incl {A : Type} (n : nat) (l : list A) (x : A) :
  In x (skipn n l) -> In x l.
Proof.
  revert n. induction l as [|a l IH]; intros [|n] H; simpl in *; try tauto.
  right. eauto.
Qed.

Lemma Forall_remove_nth {A : Type} (P : A -> Prop) (l : list A) (i : nat) :
  Forall P l -> Forall P (remove_nth i l).
Proof.
  intros H. rewrite Forall_forall in *. intros x Hx. apply H.
  unfold remove_nth in Hx. apply in_app_or in Hx.
  destruct Hx as [Hx|Hx];
    [eapply In_firstn_incl|eapply In_skipn_incl]; eassumption.
Qed.

Lemma has_model_not_None (st : App) :
  has_model st = true <-> vosk_model st <> None.
Proof.
  unfold has_model. destruct (vosk_model st); simpl; split; congruence.
Qed.

(** A callback leaves the globals alone; the thread it may start runs
    [listen] or the loader. *)
Lemma run_callback_globals (nlp : string -> Doc) (w : oracle) (cb : callback)
      (st : App) :
  vosk_model (run_callback nlp w cb st) = vosk_model st /\
  is_vosk_loaded (run_callback nlp w cb st) = is_vosk_loaded st /\
  log (run_callback nlp w cb st) = log st /\
  after_queue (run_callback nlp w cb st) = after_queue st /\
  (threads (run_callback nlp w cb st) = threads st \/
   (cb = load_model_in_thread /\
    threads (run_callback nlp w cb st)
    = (threads st ++ [mkThread target_load_vosk_model w load_vosk_model])%list) \/
   (cb = start_listening_thread /\
    threads (run_callback nlp w cb st)
    = (threads st ++ [mkThread target_listen w (listen nlp)])%list)).
Proof.
  destruct cb; cbn;
    try (match goal with
         | |- context [nth ?c ?cs None] => destruct (nth c cs None)
         end);
    cbn; repeat split; auto.
Qed.

(** One action keeps the flag behind the model, and moves neither back. *)
Lemma step_model_before_flag (nlp : string -> Doc) (a : action) (st st' : App) :
  step nlp a st = Some st' ->
  model_before_flag st ->
  model_before_flag st' /\
  implb (is_vosk_loaded st) (is_vosk_loaded st') = true /\
  implb (has_model st) (has_model st') = true.
Proof.
  intros Hstep [Hflag Hths].
  assert (Hsame : forall st1 : App,
             vosk_model st1 = vosk_model st ->
             is_vosk_loaded st1 = is_vosk_loaded st ->
             Forall (fun t => flag_after_model (has_model st) (code t))
                    (threads st1) ->
             model_before_flag st1 /\
             implb (is_vosk_loaded st) (is_vosk_loaded st1) = true /\
             implb (has_model st) (has_model st1) = true).
  { intros st1 Hm Hl Ht. unfold model_before_flag, has_model in *.
    rewrite Hm, Hl. repeat split; try assumption.
    - now destruct (is_vosk_loaded st).
    - now destruct (vosk_model st). }
  destruct a as [w|b|s|s|s|w|i]; cbn [step] in Hstep.
  - inversion Hstep; subst. apply Hsame; try reflexivity.
    cbn. apply Forall_app. split; [exact Hths|].
    constructor; [apply listen_flag|constructor].
  - inversion Hstep; subst. now apply Hsame.
  - inversion Hstep; subst. now apply Hsame.
  - inversion Hstep; subst. now apply Hsame.
  - inversion Hstep; subst. now apply Hsame.
  - destruct (after_queue st) as [|cb q]; [discriminate|].
    inversion Hstep; subst. clear Hstep.
    destruct (run_callback_globals nlp w cb (with_after_queue q st))
      as (Hm & Hl & _ & _ & Hth).
    apply Hsame; [exact Hm|exact Hl|].
    destruct Hth as [->|[[_ ->]|[_ ->]]]; [exact Hths| |];
      (apply Forall_app; split; [exact Hths|]);
      (constructor; [|constructor]); [apply load_flag|apply listen_flag].
  - destruct (nth_error (threads st) i) as [t|] eqn:Hnth; [|discriminate].
    assert (Ht : flag_after_model (has_model st) (code t)).
    { rewrite Forall_forall in Hths. apply Hths.
      now apply nth_error_In with i. }
    destruct (code t) as [r|X c k].
    + inversion Hstep; subst. clear Hstep.
      assert (Hrm : Forall (fun t => flag_after_model (has_model st) (code t))
                           (remove_nth i (threads st)))
        by now apply Forall_remove_nth.
      destruct r; now apply Hsame.
    + cbn [flag_after_model] in Ht. destruct Ht as [Hw Hk].
      destruct (exec_globals (world t) c st) as [Hhm Hld].
      destruct (exec_frame (world t) c st) as [_ [Hth _]].
      destruct (exec (world t) c st) as [r st1]. cbn [snd] in *.
      inversion Hstep; subst. clear Hstep.
      unfold model_before_flag.
      replace (has_model (with_threads
                 (set_nth i (mkThread (thread_target t) (world t) (k r))
                          (threads st1)) st1)) with (has_model st1)
        by reflexivity.
      cbn [is_vosk_loaded vosk_model threads with_threads].
      split; [split|split].
      * rewrite Hld. intros Hl. apply has_model_not_None. rewrite Hhm.
        destruct (written_flag c) as [b|].
        -- destruct Hw as [_ ->]. reflexivity.
        -- apply Bool.orb_true_iff. left.
           apply has_model_not_None. exact (Hflag Hl).
      * rewrite Hth. apply Forall_set_nth.
        -- revert Hths. apply Forall_impl. intros t' Ht'.
           rewrite Hhm. now apply flag_after_model_mono.
        -- cbn [code]. rewrite Hhm. apply Hk.
      * rewrite Hld. destruct (written_flag c) as [b|].
        -- destruct Hw as [-> _]. now destruct (is_vosk_loaded st).
        -- now destruct (is_vosk_loaded st).
      * rewrite Hhm. now destruct (has_model st).
Qed.

Lemma steps_model_before_flag (nlp : string -> Doc) (l : list action) :
  forall st st' : App,
    steps nlp l st = Some st' ->
    model_before_flag st ->
    model_before_flag st' /\
    implb (is_vosk_loaded st) (is_vosk_loaded st') = true /\
    implb (has_model st) (has_model st') = true.
Proof.
  induction l as [|a l IH]; intros st st' H Hinv; cbn [steps] in H.
  - inversion H; subst. split; [exact Hinv|].
    split; [now destruct (is_vosk_loaded st')|now destruct (has_model st')].
  - destruct (step nlp a st) as [st1|] eqn:Hstep; [|discriminate].
    destruct (step_model_before_flag nlp a st st1 Hstep Hinv) as (H1 & Hl1 & Hm1).
    destruct (IH st1 st' H H1) as (H2 & Hl2 & Hm2).
    split; [exact H2|]. split.
    + destruct (is_vosk_loaded st), (is_vosk_loaded st1), (is_vosk_loaded st');
        simpl in *; congruence.
    + destruct (has_model st), (has_model st1), (has_model st');
        simpl in *; congruence.
Qed.

Lemma initial_model_before_flag (b : bool) : model_before_flag (initial b).
Proof. split; [discriminate|constructor]. Qed.

(** X19: the flag never runs ahead of the model.  In every state the program
    can reach from its start, whatever the operator does, however the
    threads and the event loop are scheduled and whatever the libraries
    answer, [is_vosk_loaded] is true only if a model is stored: the second
    test of [not is_vosk_loaded or vosk_model is None] never decides. *)
Theorem flag_implies_model
    (nlp : string -> Doc) (b : bool) (l : list action) (st : App) :
  steps nlp l (initial b) = Some st ->
  is_vosk_loaded st = true ->
  vosk_model st <> None.
Proof.
  intros H.
  destruct (steps_model_before_flag nlp l (initial b) st H
              (initial_model_before_flag b)) as [[Hflag _] _].
  exact Hflag.
Qed.

Lemma flag_implies_model_witness :
  match steps ws_nlp
          ([mainloop_next (answers (fine_world ""))]
           ++ repeat (thread_next 0) 6)
          (initial true)
  with
  | Some st => is_vosk_loaded st = true /\ vosk_model st <> None
  | None => False
  end.
Proof.
  destruct (steps ws_nlp
              ([mainloop_next (answers (fine_world ""))]
               ++ repeat (thread_next 0) 6)
              (initial true)) as [st|] eqn:H.
  - assert (Hl : is_vosk_loaded st = true).
    { vm_compute in H. inversion H. reflexivity. }
    split; [exact Hl|].
    exact (flag_implies_model ws_nlp true _ st H Hl).
  - vm_compute in H. discriminate H.
Defined.

(** X20: the globals only move forward.  From any state the program can
    reach, in every further execution, [is_vosk_loaded] once true stays true
    and a stored model is never cleared, with any number of loader and
    listen threads interleaved. *)
Theorem globals_never_revert
    (nlp : string -> Doc) (b : bool) (l1 l2 : list action) (st st' : App) :
  steps nlp l1 (initial b) = Some st ->
  steps nlp l2 st = Some st' ->
  (is_vosk_loaded st = true -> is_vosk_loaded st' = true) /\
  (vosk_model st <> None -> vosk_model st' <> None).
Proof.
  intros H1 H2.
  destruct (steps_model_before_flag nlp l1 (initial b) st H1
              (initial_model_before_flag b)) as [Hinv _].
  destruct (steps_model_before_flag nlp l2 st st' H2 Hinv) as (_ & Hl & Hm).
  split.
  - intros E. rewrite E in Hl. exact Hl.
  - intros E. apply has_model_not_None. apply has_model_not_None in E.
    rewrite E in Hm. exact Hm.
Qed.

Lemma globals_never_revert_witness :
  match steps ws_nlp
          ([mainloop_next (answers (fine_world ""))]
           ++ repeat (thread_next 0) 9)
          (initial true)
  with
  | Some st =>
      match steps ws_nlp
              ([press_listen_button (answers no_microphone)]
               ++ repeat (thread_next 0) 7) st
      with
      | Some st' => is_vosk_loaded st = true /\ is_vosk_loaded st' = true
      | None => False
      end
  | None => False
  end.
Proof.
  destruct (steps ws_nlp
              ([mainloop_next (answers (fine_world ""))]
               ++ repeat (thread_next 0) 9) (initial true))
    as [st|] eqn:H1; [|vm_compute in H1; discriminate H1].
  assert (Hl : is_vosk_loaded st = true).
  { vm_compute in H1. inversion H1. reflexivity. }
  destruct (steps ws_nlp
              ([press_listen_button (answers no_microphone)]
               ++ repeat (thread_next 0) 7) st)
    as [st'|] eqn:H2.
  - split; [exact Hl|].
    exact (proj1 (globals_never_revert ws_nlp true _ _ st st' H1 H2) Hl).
  - vm_compute in H1. inversion H1 as [E]. rewrite <- E in H2.
    vm_compute in H2. discriminate H2.
Defined.

(** *** Counting library calls *)

Lemma exec_log {X : Type} (w : oracle) (c : call X) (st : App) :
  log (snd (exec w c st)) = (log st ++ (if logged c then [Ev c] else []))%list /\
  after_queue (snd (exec w c st)) = (after_queue st ++ scheduled_by c)%list.
Proof. destruct c; cbn; rewrite ?app_nil_r; split; reflexivity. Qed.

Section Quota.

Variable counted : event -> bool.

Lemma quota_mono {A : Type} (p : prog A) :
  forall n m, n <= m -> quota counted n p -> quota counted m p.
Proof.
  induction p as [a|X c k IH]; intros n m Hle H; [exact I|].
  cbn [quota] in *. destruct H as [Hs H]. split; [exact Hs|].
  destruct (logged c && counted (Ev c)).
  - destruct n as [|n]; [destruct H|]. destruct m as [|m]; [lia|].
    intros r. apply (IH r n m); [lia|apply H].
  - intros r. apply (IH r n m Hle), H.
Qed.

Lemma quota_only {A : Type} (p : prog A) :
  only (uncounted counted) p -> forall n, quota counted n p.
Proof.
  induction p as [a|X c k IH]; intros H n; [exact I|].
  cbn in *. destruct H as [Hc Hk]. unfold uncounted in Hc.
  apply andb_true_iff in Hc. destruct Hc as [Hs Hn].
  split; [exact Hs|]. apply negb_true_iff in Hn. rewrite Hn.
  intros r. now apply IH.
Qed.

Lemma quota_pbind {A B : Type} (p : prog A) (f : A -> prog B) :
  forall n m,
    quota counted n p -> (forall a, quota counted m (f a)) ->
    quota counted (n + m) (pbind p f).
Proof.
  induction p as [a|X c k IH]; intros n m Hp Hf.
  - cbn. apply quota_mono with m; [lia|apply Hf].
  - cbn [pbind quota] in *. destruct Hp as [Hs Hp]. split; [exact Hs|].
    destruct (logged c && counted (Ev c)).
    + destruct n as [|n]; [destruct Hp|]. cbn [Nat.add].
      intros r. apply IH; [apply Hp|exact Hf].
    + intros r. apply IH; [apply Hp|exact Hf].
Qed.

Lemma quota_bind {A B : Type} (n m : nat) (mm : M A) (f : A -> M B) :
  quota counted n mm -> (forall a, quota counted m (f a)) ->
  quota counted (n + m) (bind mm f).
Proof.
  intros Hm Hf. apply quota_pbind; [exact Hm|].
  intros [a|e]; [apply Hf|exact I].
Qed.

Lemma quota_try_except {A : Type} (n m : nat) (mm : M A) (h : exn -> M A) :
  quota counted n mm -> (forall e, quota counted m (h e)) ->
  quota counted (n + m) (try_except mm h).
Proof.
  intros Hm Hh. apply quota_pbind; [exact Hm|].
  intros [a|e]; [exact I|apply Hh].
Qed.

Lemma quota_try_finally {A : Type} (n m : nat) (mm : M A) (fin : M unit) :
  quota counted n mm -> quota counted m fin ->
  quota counted (n + m) (try_finally mm fin).
Proof.
  intros Hm Hfin. apply quota_pbind; [exact Hm|].
  intros r. replace m with (m + 0) by lia.
  apply quota_pbind; [exact Hfin|]. intros r'. exact I.
Qed.

Lemma quota_perform {X : Type} (c : call X) :
  starts_no_thread c = true -> quota counted 1 (perform c).
Proof.
  intros Hs. split; [exact Hs|].
  destruct (logged c && counted (Ev c)); intros r; exact I.
Qed.

(** **** The pool of threads *)

Variable nlp : string -> Doc.
Variables qL qV : nat.
Hypothesis listen_quota : quota counted qL (listen nlp).
Hypothesis load_quota : quota counted qV load_vosk_model.

(** What is still owed: the calls the pending callbacks and the live threads
    may yet make, and those already made. *)
Definition owed (st : App) (ns : list nat) : nat :=
  qV * count is_load_cb (after_queue st)
  + qL * count is_start_cb (after_queue st)
  + list_sum ns + count counted (log st).

Definition within (budget : nat) (st : App) : Prop :=
  exists ns,
    Forall2 (fun t n => quota counted n (code t)) (threads st) ns /\
    owed st ns <= budget.

Lemma count_cons {A : Type} (f : A -> bool) (a : A) (l : list A) :
  count f (a :: l) = (if f a then 1 else 0) + count f l.
Proof. unfold count. simpl. now destruct (f a). Qed.

Lemma count_no_thread_cb (f : callback -> bool) (l : list callback) :
  (forall cb, f cb = true -> is_load_cb cb || is_start_cb cb = true) ->
  forallb (fun cb => negb (is_load_cb cb || is_start_cb cb)) l = true ->
  count f l = 0.
Proof.
  intros Hf H. apply count_zero. rewrite forallb_forall in H.
  apply Forall_forall. intros cb Hin. specialize (H cb Hin).
  destruct (f cb) eqn:E; [|reflexivity].
  rewrite (Hf cb E) in H. discriminate H.
Qed.

Lemma step_within (a : action) (st st' : App) (budget : nat) :
  step nlp a st = Some st' ->
  within budget st ->
  within (budget + match a with press_listen_button _ => qL | _ => 0 end) st'.
Proof.
  intros Hstep (ns & Hths & Howed). unfold owed in Howed.
  destruct a as [w|b|s|s|s|w|i]; cbn [step] in Hstep.
  - inversion Hstep; subst. exists (ns ++ [qL])%list. split.
    + cbn. apply Forall2_app; [exact Hths|].
      constructor; [exact listen_quota|constructor].
    + unfold owed. cbn. rewrite list_sum_app. simpl. unfold count in *. lia.
  - inversion Hstep; subst. exists ns. split; [exact Hths|].
    unfold owed. cbn. unfold count in *. lia.
  - inversion Hstep; subst. exists ns. split; [exact Hths|].
    unfold owed. cbn. unfold count in *. lia.
  - inversion Hstep; subst. exists ns. split; [exact Hths|].
    unfold owed. cbn. unfold count in *. lia.
  - inversion Hstep; subst. exists ns. split; [exact Hths|].
    unfold owed. cbn. unfold count in *. lia.
  - destruct (after_queue st) as [|cb q] eqn:Hq; [discriminate|].
    inversion Hstep; subst. clear Hstep.
    destruct (run_callback_globals nlp w cb (with_after_queue q st))
      as (_ & _ & Hlog & Hqueue & Hth).
    rewrite !count_cons in Howed.
    destruct Hth as [Hsame|[[-> Hnew]|[-> Hnew]]].
    + exists ns. split; [now rewrite Hsame|].
      unfold owed. rewrite Hlog, Hqueue. cbn. unfold count in *. nia.
    + exists (ns ++ [qV])%list. split.
      * rewrite Hnew. apply Forall2_app; [exact Hths|].
        constructor; [exact load_quota|constructor].
      * unfold owed. rewrite Hlog, Hqueue, list_sum_app. cbn in *. unfold count in *. nia.
    + exists (ns ++ [qL])%list. split.
      * rewrite Hnew. apply Forall2_app; [exact Hths|].
        constructor; [exact listen_quota|constructor].
      * unfold owed. rewrite Hlog, Hqueue, list_sum_app. cbn in *. unfold count in *. nia.
  - destruct (nth_error (threads st) i) as [t|] eqn:Hnth; [|discriminate].
    destruct (nth_error_split _ _ Hnth) as (pre & post & Hsplit & Hlen).
    subst i. rewrite Hsplit in Hths.
    apply Forall2_app_inv_l in Hths.
    destruct Hths as (npre & nrest & Hpre & Hrest & ->).
    inversion Hrest as [|? n ? npost Ht Hpost]; subst.
    assert (Hlenn : List.length npre = List.length pre)
      by (symmetry; eapply Forall2_length; eassumption).
    rewrite list_sum_app in Howed. simpl in Howed.
    destruct (code t) as [r|X c k] eqn:Hcode.
    + inversion Hstep; subst. clear Hstep.
      exists (npre ++ npost)%list. split.
      * rewrite Hsplit, remove_nth_middle.
        destruct r; cbn; now apply Forall2_app.
      * unfold owed. rewrite list_sum_app.
        destruct r; cbn; unfold count in *; lia.
    + cbn [quota] in Ht. destruct Ht as [Hs Hk].
      destruct (exec_log (world t) c st) as [Hlog Hqueue].
      destruct (exec_frame (world t) c st) as [_ [Hth _]].
      destruct (exec (world t) c st) as [r st1]. cbn [snd] in *.
      inversion Hstep; subst. clear Hstep.
      assert (Hcl : count is_load_cb (scheduled_by c) = 0).
      { apply count_no_thread_cb; [|exact Hs].
        intros cb ->. reflexivity. }
      assert (Hcs : count is_start_cb (scheduled_by c) = 0).
      { apply count_no_thread_cb; [|exact Hs].
        intros cb ->. apply Bool.orb_true_r. }
      destruct (logged c && counted (Ev c)) eqn:Hcount.
      * destruct n as [|n']; [destruct Hk|].
        exists (npre ++ n' :: npost)%list. split.
        -- cbn [threads with_threads]. rewrite Hth, Hsplit, set_nth_middle.
           apply Forall2_app; [exact Hpre|]. constructor; [apply Hk|exact Hpost].
        -- unfold owed. cbn [after_queue log with_threads].
           rewrite Hlog, Hqueue, !count_app, Hcl, Hcs, list_sum_app.
           apply andb_true_iff in Hcount. destruct Hcount as [-> Hc].
           rewrite count_cons, Hc, ?Nat.add_0_r. unfold count in *. simpl. lia.
      * exists (npre ++ n :: npost)%list. split.
        -- cbn [threads with_threads]. rewrite Hth, Hsplit, set_nth_middle.
           apply Forall2_app; [exact Hpre|]. constructor; [apply Hk|exact Hpost].
        -- unfold owed. cbn [after_queue log with_threads].
           rewrite Hlog, Hqueue, !count_app, Hcl, Hcs, list_sum_app.
           assert (Hz : count counted (if logged c then [Ev c] else []) = 0).
           { destruct (logged c); [|reflexivity].
             simpl in Hcount. unfold count. simpl. now rewrite Hcount. }
           rewrite Hz, ?Nat.add_0_r. unfold count in *. simpl. lia.
Qed.

Lemma steps_within (l : list action) :
  forall (st st' : App) (budget : nat),
    steps nlp l st = Some st' ->
    within budget st ->
    within (budget + qL * presses l) st'.
Proof.
  induction l as [|a l IH]; intros st st' budget H Hw; cbn [steps] in H.
  - inversion H; subst. unfold presses, count. simpl.
    now rewrite Nat.mul_0_r, Nat.add_0_r.
  - destruct (step nlp a st) as [st1|] eqn:Hstep; [|discriminate].
    pose proof (step_within a st st1 budget Hstep Hw) as H1.
    pose proof (IH st1 st' _ H H1) as H2.
    destruct H2 as (ns & Hths & Howed). exists ns. split; [exact Hths|].
    unfold presses in *. rewrite count_cons. destruct a; lia.
Qed.

(** From the start of the program, the counted calls made are at most those
    the loader may make, and those a cycle may make for each press. *)
Lemma calls_are_bounded (b : bool) (l : list action) (st : App) :
  steps nlp l (initial b) = Some st ->
  count counted (log st) <= qV + qL * presses l.
Proof.
  intros H.
  assert (Hinit : within qV (initial b)).
  { exists []. split; [constructor|]. unfold owed, count. simpl. lia. }
  destruct (steps_within l (initial b) st qV H Hinit) as (ns & _ & Howed).
  unfold owed in Howed. lia.
Qed.

End Quota.

(** **** What each program may call *)

Ltac uncounted_tac :=
  apply quota_only;
  unfold listen, listen_body, capture, with_Microphone, model_not_loaded,
    recognize_vosk, listen_handler, load_vosk_model, except_as;
  only_tac; try (apply only_process_text; reflexivity).

Lemma listen_loads_nothing (nlp : string -> Doc) :
  quota is_load_attempt 0 (listen nlp).
Proof. uncounted_tac. Qed.

Lemma load_loads_once : quota is_load_attempt 1 load_vosk_model.
Proof.
  unfold load_vosk_model.
  apply (quota_bind _ 0 1); [uncounted_tac|]. intros [|]; [|uncounted_tac].
  apply (quota_try_except _ 1 0); [|intros e; uncounted_tac].
  apply (quota_bind _ 0 1); [uncounted_tac|]. intros _.
  apply (quota_bind _ 0 1); [uncounted_tac|]. intros _.
  apply (quota_bind _ 1 0); [now apply quota_perform|].
  intros m. uncounted_tac.
Qed.

Lemma load_opens_no_microphone : quota is_microphone_open 0 load_vosk_model.
Proof. uncounted_tac. Qed.

Lemma load_records_nothing : quota is_capture 0 load_vosk_model.
Proof. uncounted_tac. Qed.

Lemma load_recognizes_nothing : quota is_recognize 0 load_vosk_model.
Proof. uncounted_tac. Qed.

Lemma listen_opens_microphone_once (nlp : string -> Doc) :
  quota is_microphone_open 1 (listen nlp).
Proof.
  unfold listen.
  apply (quota_try_finally _ 1 0); [|uncounted_tac].
  apply (quota_try_except _ 1 0); [|intros e; uncounted_tac].
  unfold listen_body.
  apply (quota_bind _ 0 1); [uncounted_tac|]. intros _.
  apply (quota_bind _ 1 0); [|intros audio; uncounted_tac].
  unfold capture, with_Microphone.
  apply (quota_bind _ 1 0); [now apply quota_perform|].
  intros _. uncounted_tac.
Qed.

Lemma listen_records_once (nlp : string -> Doc) :
  quota is_capture 1 (listen nlp).
Proof.
  unfold listen.
  apply (quota_try_finally _ 1 0); [|uncounted_tac].
  apply (quota_try_except _ 1 0); [|intros e; uncounted_tac].
  unfold listen_body.
  apply (quota_bind _ 0 1); [uncounted_tac|]. intros _.
  apply (quota_bind _ 1 0); [|intros audio; uncounted_tac].
  unfold capture, with_Microphone.
  apply (quota_bind _ 0 1); [uncounted_tac|]. intros _.
  apply (quota_try_finally _ 1 0); [|uncounted_tac].
  apply (quota_bind _ 0 1); [uncounted_tac|]. intros _.
  apply (quota_bind _ 0 1); [uncounted_tac|]. intros _.
  now apply quota_perform.
Qed.

Lemma listen_recognizes_once (nlp : string -> Doc) :
  quota is_recognize 1 (listen nlp).
Proof.
  unfold listen.
  apply (quota_try_finally _ 1 0); [|uncounted_tac].
  apply (quota_try_except _ 1 0); [|intros e; uncounted_tac].
  unfold listen_body.
  apply (quota_bind _ 0 1); [uncounted_tac|]. intros _.
  apply (quota_bind _ 0 1); [uncounted_tac|]. intros audio.
  apply (quota_bind _ 0 1); [uncounted_tac|]. intros offline.
  apply (quota_bind _ 1 0); [|intros [txt|]; uncounted_tac].
  destruct offline.
  - apply (quota_bind _ 0 1); [uncounted_tac|]. intros [|].
    + apply quota_mono with 0; [lia|]. uncounted_tac.
    + apply (quota_bind _ 1 0); [|intros txt; uncounted_tac].
      unfold recognize_vosk.
      apply (quota_bind _ 0 1); [uncounted_tac|]. intros raw.
      apply (quota_bind _ 0 1); [uncounted_tac|]. intros model.
      apply (quota_bind _ 0 1); [uncounted_tac|]. intros rec.
      apply (quota_bind _ 1 0); [now apply quota_perform|].
      intros accepted. uncounted_tac.
  - apply (quota_bind _ 1 0); [now apply quota_perform|].
    intros txt. uncounted_tac.
Qed.

(** X21: the model is loaded at most once.  From the start of the program,
    whatever the operator does, however the threads and the event loop are
    scheduled and whatever the libraries answer, [Model(model_path)] is
    called at most once: only the callback scheduled at startup starts the
    loader, and neither a listen cycle nor a GUI callback starts it again. *)
Theorem model_loaded_at_most_once
    (nlp : string -> Doc) (b : bool) (l : list action) (st : App) :
  steps nlp l (initial b) = Some st ->
  count is_load_attempt (log st) <= 1.
Proof.
  intros H.
  pose proof (calls_are_bounded is_load_attempt nlp 0 1
                (listen_loads_nothing nlp) load_loads_once b l st H) as Hb.
  lia.
Qed.

Lemma model_loaded_at_most_once_witness :
  match steps ws_nlp
          ([mainloop_next (answers (fine_world ""));
            press_listen_button (answers (fine_world "safety reset"))]
           ++ repeat (thread_next 0) 23)
          (initial true)
  with
  | Some st => count is_load_attempt (log st) <= 1
  | None => False
  end.
Proof.
  destruct (steps ws_nlp
              ([mainloop_next (answers (fine_world ""));
                press_listen_button (answers (fine_world "safety reset"))]
               ++ repeat (thread_next 0) 23)
              (initial true)) as [st|] eqn:H.
  - exact (model_loaded_at_most_once ws_nlp true _ st H).
  - vm_compute in H. discriminate H.
Defined.

(** X22: one recording for each press, at most.  From the start of the
    program, in every execution, the microphone has been opened and
    [recognizer.listen] has been called at most as many times as the
    operator has pressed the button; without a press the program never
    records. *)
Theorem one_recording_per_press
    (nlp : string -> Doc) (b : bool) (l : list action) (st : App) :
  steps nlp l (initial b) = Some st ->
  count is_microphone_open (log st) <= presses l /\
  count is_capture (log st) <= presses l.
Proof.
  intros H. split.
  - pose proof (calls_are_bounded is_microphone_open nlp 1 0
                  (listen_opens_microphone_once nlp)
                  load_opens_no_microphone b l st H) as Hb.
    lia.
  - pose proof (calls_are_bounded is_capture nlp 1 0
                  (listen_records_once nlp)
                  load_records_nothing b l st H) as Hb.
    lia.
Qed.

Lemma one_recording_per_press_witness :
  match steps ws_nlp
          ([press_listen_button (answers (fine_world "safety reset"));
            press_listen_button (answers (fine_world "safety reset"))]
           ++ repeat (thread_next 0) 28)
          (initial false)
  with
  | Some st =>
      count is_microphone_open (log st) <= 2 /\
      count is_capture (log st) <= 2
  | None => False
  end.
Proof.
  destruct (steps ws_nlp
              ([press_listen_button (answers (fine_world "safety reset"));
                press_listen_button (answers (fine_world "safety reset"))]
               ++ repeat (thread_next 0) 28)
              (initial false)) as [st|] eqn:H.
  - exact (one_recording_per_press ws_nlp false _ st H).
  - vm_compute in H. discriminate H.
Defined.

(** X23: one recognition for each press, at most.  From the start of the
    program, in every execution, the calls that recognize speech
    ([recognize_google] online, [AcceptWaveform] offline) number at most the
    presses of the button: a cycle never retries, and never uses both
    modes. *)
Theorem one_recognition_per_press
    (nlp : string -> Doc) (b : bool) (l : list action) (st : App) :
  steps nlp l (initial b) = Some st ->
  count is_recognize (log st) <= presses l.
Proof.
  intros H.
  pose proof (calls_are_bounded is_recognize nlp 1 0
                (listen_recognizes_once nlp)
                load_recognizes_nothing b l st H) as Hb.
  lia.
Qed.

Lemma one_recognition_per_press_witness :
  match steps ws_nlp
          ([press_listen_button (answers (fine_world "safety reset"))]
           ++ repeat (thread_next 0) 14)
          (initial false)
  with
  | Some st => count is_recognize (log st) <= 1
  | None => False
  end.
Proof.
  destruct (steps ws_nlp
              ([press_listen_button (answers (fine_world "safety reset"))]
               ++ repeat (thread_next 0) 14)
              (initial false)) as [st|] eqn:H.
  - exact (one_recognition_per_press ws_nlp false _ st H).
  - vm_compute in H. discriminate H.
Defined.
